(** * helpers.py: notebook helpers of the RAG demo

    A shallow embedding of [src/helpers.py] and the properties its
    specification states about it.

    - Python [str] values are sequences of Unicode code points: [list N].
    - [to_markdown] is the composition of the three passes of the source:
      bullet replacement, the [re.sub] over python blocks, and the line loop.
    - The session store is a dictionary of references into a heap of
      [ChatMessageHistory] objects, so that aliasing is visible.
    - The cache file lives in a one-file file system; [json] and the
      Wikipedia loader are collaborators the code only calls. *)

From stdpp Require Import base numbers option list strings pretty gmap.

Local Open Scope N_scope.

(** ** Python strings *)

Module PyStr.

Abbreviation pystr := (list N).

(** A literal of ASCII characters, read as its code points. *)
Definition lit (s : string) : pystr :=
  map (fun a => N.of_nat (Ascii.nat_of_ascii a)) (String.list_ascii_of_string s).

Definition LF : N := 10.
Definition BULLET : N := 8226.          (* U+2022 *)

(** [str.isspace] on one code point: the characters [str.strip()] removes. *)
Definition is_space (c : N) : bool :=
  ((9 <=? c) && (c <=? 13)) || ((28 <=? c) && (c <=? 32))
  || (c =? 133) || (c =? 160) || (c =? 5760)
  || ((8192 <=? c) && (c <=? 8202))
  || (c =? 8232) || (c =? 8233) || (c =? 8239) || (c =? 8287) || (c =? 12288).

Fixpoint lstrip (s : pystr) : pystr :=
  match s with
  | [] => []
  | c :: r => if is_space c then lstrip r else s
  end.

Definition rstrip (s : pystr) : pystr := reverse (lstrip (reverse s)).

(** [s.strip()] *)
Definition strip (s : pystr) : pystr := rstrip (lstrip s).

(** [s.startswith(p)] *)
Fixpoint startswith (p s : pystr) : bool :=
  match p, s with
  | [], _ => true
  | _ :: _, [] => false
  | a :: p', b :: s' => (a =? b) && startswith p' s'
  end.

(** [s.replace(old, new)] for a one-character [old]. *)
Definition replace_char (old : N) (new : pystr) (s : pystr) : pystr :=
  flat_map (fun c => if c =? old then new else [c]) s.

(** [s.split(sep)] for a one-character [sep]: never the empty list. *)
Fixpoint split (sep : N) (s : pystr) : list pystr :=
  match s with
  | [] => [[]]
  | c :: r =>
      if c =? sep then [] :: split sep r
      else match split sep r with
           | l :: ls => (c :: l) :: ls
           | [] => [[c]]
           end
  end.

(** [sep.join(ls)] *)
Fixpoint join (sep : pystr) (ls : list pystr) : pystr :=
  match ls with
  | [] => []
  | l :: ls' =>
      match ls' with
      | [] => l
      | _ :: _ => l ++ sep ++ join sep ls'
      end
  end.

(** [pat in s] on strings: the substring test. *)
Fixpoint contains (pat s : pystr) : bool :=
  match s with
  | [] => startswith pat []
  | _ :: r => startswith pat s || contains pat r
  end.

(** First occurrence of a non-empty [pat] in [s]: the text before it and
    the text after it. *)
Fixpoint find (pat s : pystr) : option (pystr * pystr) :=
  match s with
  | [] => None
  | c :: r =>
      if startswith pat s then Some ([], drop (length pat) s)
      else match find pat r with
           | Some (b, a) => Some (c :: b, a)
           | None => None
           end
  end.

End PyStr.

Import PyStr.

(** ** The formatter: [to_markdown] *)

Module Formatter.

Definition FENCE : pystr := Eval cbv in lit "```".
Definition QUOTE : pystr := Eval cbv in lit "> ".
Definition LIST_ITEM : pystr := Eval cbv in lit "  * ".
Definition OPEN_PY : pystr := Eval cbv in lit "```python" ++ [LF].
Definition CLOSE_PY : pystr := Eval cbv in LF :: lit "```".

(** The IPython [Markdown] display object: a wrapper around its text. *)
Record Markdown := mkMarkdown { data : pystr }.

(** [preserve_code(match)]: the replacement for one match, from its group 1. *)
Definition preserve_code (group1 : pystr) : pystr :=
  [LF] ++ lit "```python" ++ [LF] ++ group1 ++ [LF] ++ lit "```" ++ [LF].

(** [re.sub(r"```python\n(.*?)\n```", preserve_code, text, flags=re.DOTALL)].
    The leftmost match starts at the first [OPEN_PY]; the lazy group ends at
    the first [CLOSE_PY] after it; the scan resumes after the match.  When
    the first [OPEN_PY] has no [CLOSE_PY] after it no later one has either. *)
Fixpoint re_sub_fuel (fuel : nat) (text : pystr) : pystr :=
  match fuel with
  | O => text
  | S n =>
      match find OPEN_PY text with
      | None => text
      | Some (before, rest) =>
          match find CLOSE_PY rest with
          | None => text
          | Some (group1, after) =>
              before ++ preserve_code group1 ++ re_sub_fuel n after
          end
      end
  end.

Definition re_sub (text : pystr) : pystr := re_sub_fuel (length text) text.

(** The state of the loop: [formatted_lines] and [inside_code_block]. *)
Definition loop_state : Type := list pystr * bool.

(** One iteration of [for line in lines]. *)
Definition loop_body (st : loop_state) (line : pystr) : loop_state :=
  let '(formatted_lines, inside_code_block) := st in
  if startswith FENCE line then
    (formatted_lines ++ [line], negb inside_code_block)
  else if negb inside_code_block then
    match strip line with
    | [] => (formatted_lines, inside_code_block)
    | c :: l => (formatted_lines ++ [QUOTE ++ c :: l], inside_code_block)
    end
  else (formatted_lines ++ [line], inside_code_block).

Definition loop (lines : list pystr) (st : loop_state) : loop_state :=
  fold_left loop_body lines st.

(** The text after the two passes that precede the loop. *)
Definition preprocess (text : pystr) : pystr :=
  re_sub (replace_char BULLET LIST_ITEM text).

Definition formatted_lines (text : pystr) : list pystr :=
  fst (loop (split LF (preprocess text)) ([], false)).

Definition to_markdown (text : pystr) : Markdown :=
  mkMarkdown (join [LF] (formatted_lines text)).


(** *** Vocabulary of the properties *)

(** The lines the loop treats as text: they do not start a fence. *)
Definition plain (line : pystr) : Prop := startswith FENCE line = false.

(** What the loop emits for plain lines outside a code block. *)
Definition blockquote (lines : list pystr) : list pystr :=
  map (fun l => QUOTE ++ l) (filter (fun l => l ≠ []) (map strip lines)).

(** The lines of a text after its first one. *)
Definition later_lines (s : pystr) : list pystr := tl (split LF s).

(** The flag, when the loop has gone through [pre] from the start. *)
Definition inside_after (pre : list pystr) : bool := snd (loop pre ([], false)).

(** The output, when the loop has gone through [pre] from the start. *)
Definition output_of (pre : list pystr) : list pystr := fst (loop pre ([], false)).

(** C2 as the specification words it, on the lines of the input text: what
    lies between an opening fence line and the next closing one is found in
    the output, line for line. *)
Definition fenced_content_reproduced (text : pystr) : Prop :=
  ∀ pre opening body closing post,
    split LF text = pre ++ opening :: body ++ closing :: post →
    inside_after pre = false →
    startswith FENCE opening = true →
    startswith FENCE closing = true →
    Forall plain body →
    ∃ o1 o2, split LF (data (to_markdown text)) = o1 ++ body ++ o2.

(** C8 as the specification words it, on the lines of the input text: a
    line that starts with the fence marker is a line of the output. *)
Definition fence_lines_kept (text : pystr) : Prop :=
  ∀ pre line post,
    split LF text = pre ++ line :: post →
    startswith FENCE line = true →
    line ∈ split LF (data (to_markdown text)).

(** A python block whose closing fence line goes on with text. *)
Definition text_after_fence : pystr :=
  Eval cbv in lit "```python" ++ [LF] ++ lit "x" ++ [LF] ++ lit "```abc".

(** A bullet inside a fence. *)
Definition bullet_in_fence : pystr :=
  Eval cbv in lit "```" ++ [LF; BULLET; LF] ++ lit "```".

End Formatter.

(** ** Python values, exceptions and results *)

Module Py.

(** What [open] raises on a file that exists but cannot be read. *)
Inductive os_error := PermissionError | IsADirectoryError | OtherOSError (errno : N).

Inductive exn :=
| FileNotFoundError
| OSError (e : os_error)
| UnicodeDecodeError
| JSONDecodeError (pos : N)
| TypeError
| KeyError
| ValidationError
| CollaboratorError (code : N).

Global Instance os_error_eq_dec : EqDecision os_error.
Proof. solve_decision. Defined.
Global Instance exn_eq_dec : EqDecision exn.
Proof. solve_decision. Defined.

(** The outcome of an expression: a value or a raised exception. *)
Inductive result (A : Type) := Ok (a : A) | Err (e : exn).
Global Arguments Ok {A} a.
Global Arguments Err {A} e.

(** The values [json.load] builds; an object keeps its keys in order, as a
    Python [dict] does.  A float is given by its [repr], which [str] and
    [json.dump] write and which denotes it uniquely. *)
#[warnings="-register-all"]
Inductive json :=
| JNull
| JBool (b : bool)
| JInt (n : Z)
| JFloat (repr : pystr)
| JStr (s : pystr)
| JArr (items : list json)
| JObj (fields : list (pystr * json)).

(** [d.get(k)] on the fields of a [dict]. *)
Fixpoint dict_get (k : pystr) (d : list (pystr * json)) : option json :=
  match d with
  | [] => None
  | (k', v) :: d' => if decide (k' = k) then Some v else dict_get k d'
  end.

(** [d[k] = v]: an existing key keeps its place, a new key goes last. *)
Fixpoint dict_set (k : pystr) (v : json) (d : list (pystr * json))
  : list (pystr * json) :=
  match d with
  | [] => [(k, v)]
  | (k', v') :: d' =>
      if decide (k' = k) then (k, v) :: d' else (k', v') :: dict_set k v d'
  end.

End Py.

Import Py.

(** ** Documents and [format_docs] *)

Module Documents.

(** A langchain [Document], as [langchain_core] declares it: the fields
    [page_content], [metadata] and the optional [id]; its fourth field,
    [type], is the constant ["Document"] and needs no place in the record. *)
Record Document := mkDocument {
  page_content : pystr;
  metadata : list (pystr * json);
  doc_id : option pystr
}.

Definition SEP : pystr := [LF; LF].

(** [format_docs(docs)]; [None] is Python's [None], which the generator
    expression cannot iterate. *)
Definition format_docs (docs : option (list Document)) : result pystr :=
  match docs with
  | None => Err TypeError
  | Some ds => Ok (join SEP (map page_content ds))
  end.

End Documents.

(** ** The session store and [get_session_history] *)

Module Session.

Import Formatter.

(** One chat turn. *)
Record message := mkMessage { role : pystr; content : pystr }.

(** A reference to a [ChatMessageHistory] object. *)
Abbreviation ref := positive.

(** The process state the accessor touches: the global [store], the objects
    it refers to, and what was sent to the notebook's [display]. *)
Record state := mkState {
  store : gmap pystr ref;
  heap : gmap ref (list message);
  displayed : list Markdown
}.

(** The text of the f-string before [{store}]; the character after the
    sharp signs is a no-break space, U+00A0. *)
Definition STORE_HEADER : pystr :=
  Eval cbv in lit "####" ++ [160] ++ lit "Store: " ++ [LF; LF] ++ lit " ".

(** [history.add_message(m)] through a reference. *)
Definition add_message (h : ref) (m : message) (st : state) : state :=
  mkState (store st) (alter (fun ms => ms ++ [m]) h (heap st)) (displayed st).

Section Accessor.

(** [str(store)] inside the f-string: the [repr] of the dictionary and of
    the history objects in it. *)
Variable repr_store : gmap pystr ref -> gmap ref (list message) -> pystr.

Definition display (md : Markdown) (st : state) : state :=
  mkState (store st) (heap st) (displayed st ++ [md]).

Definition get_session_history (session_id : pystr) (st : state) : ref * state :=
  let st1 :=
    display (to_markdown (STORE_HEADER ++ repr_store (store st) (heap st))) st in
  match store st1 !! session_id with
  | Some h => (h, st1)
  | None =>
      (* [ChatMessageHistory()]: a new object with no messages *)
      let h := fresh (dom (heap st1)) in
      (h, mkState (<[session_id := h]> (store st1)) (<[h := []]> (heap st1))
                  (displayed st1))
  end.

(** What the rest of the program does with the store between two accesses:
    it calls the accessor, or appends to a history it holds. *)
Inductive action :=
| Access (session_id : pystr)
| Append (h : ref) (m : message).

Definition perform (st : state) (a : action) : state :=
  match a with
  | Access sid => snd (get_session_history sid st)
  | Append h m => add_message h m st
  end.

Definition run (acts : list action) (st : state) : state :=
  fold_left perform acts st.

(** The messages a run of actions appends to the object [h]. *)
Definition appended (h : ref) (acts : list action) : list message :=
  omap (fun a => match a with
                 | Append h' m => if decide (h' = h) then Some m else None
                 | Access _ => None
                 end) acts.

End Accessor.

End Session.

(** ** The cached page loader: [load_wikipedia_with_cache] *)

Module Cache.

Import Documents.

(** The cache file [CACHE_FILE] as the file system holds it. *)
Inductive file :=
| Absent
| Unreadable (e : os_error)
| Text (content : pystr).

(** The world the loader runs in: the cache file and the titles for which
    the page-loading collaborator was invoked, oldest first. *)
Record world := mkWorld {
  cache_file : file;
  loader_calls : list pystr
}.

(** Computations that read and write the world and may raise; what a raising
    computation did to the world before raising stays done. *)
Definition M (A : Type) : Type := world -> result A * world.

Definition ret {A} (a : A) : M A := fun w => (Ok a, w).
Definition raise {A} (e : exn) : M A := fun w => (Err e, w).
Definition bind {A B} (m : M A) (k : A -> M B) : M B :=
  fun w => match m w with
           | (Ok a, w') => k a w'
           | (Err e, w') => (Err e, w')
           end.
Definition lift {A} (r : result A) : M A := fun w => (r, w).

(** [try: m except <the exceptions h handles>: ...] *)
Definition try_except {A} (m : M A) (h : exn -> option (M A)) : M A :=
  fun w => match m w with
           | (Ok a, w') => (Ok a, w')
           | (Err e, w') => match h e with
                            | Some k => k w'
                            | None => (Err e, w')
                            end
           end.

Notation "'let*' x := m 'in' k" := (bind m (fun x => k))
  (at level 10, x pattern, m at level 100, k at level 200).

(** A list comprehension whose element expression may raise. *)
Fixpoint comprehension {A B} (f : A -> result B) (l : list A) : result (list B) :=
  match l with
  | [] => Ok []
  | a :: l' =>
      match f a with
      | Err e => Err e
      | Ok b => match comprehension f l' with
                | Err e => Err e
                | Ok bs => Ok (b :: bs)
                end
      end
  end.

Definition PAGE_CONTENT : pystr := Eval cbv in lit "page_content".
Definition METADATA : pystr := Eval cbv in lit "metadata".

Definition ID : pystr := Eval cbv in lit "id".
Definition TYPE : pystr := Eval cbv in lit "type".
Definition DOCUMENT : pystr := Eval cbv in lit "Document".

(** [doc.__dict__]: the four fields in the order the class declares them. *)
Definition doc_dict (doc : Document) : json :=
  JObj [(ID, match doc_id doc with
             | Some i => JStr i
             | None => JNull
             end);
        (METADATA, JObj (metadata doc));
        (PAGE_CONTENT, JStr (page_content doc));
        (TYPE, JStr DOCUMENT)].

(** What the validation of [Document] accepts for each field: a string for
    [page_content]; a dictionary, by default the empty one, for [metadata];
    nothing, [None], a string or a number (turned into its [str]) for [id];
    nothing or ["Document"] for [type]. *)
Definition valid_metadata (v : option json) : option (list (pystr * json)) :=
  match v with
  | None => Some []
  | Some (JObj m) => Some m
  | Some _ => None
  end.

Definition valid_id (v : option json) : option (option pystr) :=
  match v with
  | None | Some JNull => Some None
  | Some (JStr i) => Some (Some i)
  | Some (JInt n) => Some (Some (lit (pretty n)))
  | Some (JFloat r) => Some (Some r)
  | Some _ => None
  end.

Definition valid_type (v : option json) : bool :=
  match v with
  | None => true
  | Some (JStr t) => bool_decide (t = DOCUMENT)
  | Some _ => false
  end.

Definition SELF : pystr := Eval cbv in lit "self".

(** The [Document] constructor applied to the unpacked keywords of
    [doc_dict].  Unpacking needs a mapping, [page_content] is a required
    argument of [__init__] and [self] is its first one, which a keyword
    cannot give again: these fail with [TypeError].  The fields are then
    validated together; keywords that are no field are ignored. *)
Definition Document_init (doc_dict : json) : result Document :=
  match doc_dict with
  | JObj kwargs =>
      match dict_get SELF kwargs, dict_get PAGE_CONTENT kwargs with
      | Some _, _ | None, None => Err TypeError
      | None, Some content =>
          match content, valid_metadata (dict_get METADATA kwargs),
                valid_id (dict_get ID kwargs), valid_type (dict_get TYPE kwargs) with
          | JStr c, Some m, Some i, true => Ok (mkDocument c m i)
          | _, _, _, _ => Err ValidationError
          end
      end
  | _ => Err TypeError
  end.

(** [title in cache] *)
Definition py_in (title : pystr) (cache : json) : result bool :=
  match cache with
  | JObj d => Ok (bool_decide (is_Some (dict_get title d)))
  | JArr l => Ok (existsb (fun x => match x with
                                    | JStr s => bool_decide (s = title)
                                    | _ => false
                                    end) l)
  | JStr s => Ok (contains title s)
  | _ => Err TypeError
  end.

(** [cache[title]] *)
Definition getitem (cache : json) (title : pystr) : result json :=
  match cache with
  | JObj d => match dict_get title d with
              | Some v => Ok v
              | None => Err KeyError
              end
  | _ => Err TypeError
  end.

(** [cache[title] = v] *)
Definition setitem (cache : json) (title : pystr) (v : json) : result json :=
  match cache with
  | JObj d => Ok (JObj (dict_set title v d))
  | _ => Err TypeError
  end.

(** [for doc_dict in v]: the elements a value yields when iterated. *)
Definition iterate (v : json) : result (list json) :=
  match v with
  | JArr l => Ok l
  | JObj d => Ok (map (fun kv => JStr (fst kv)) d)
  | JStr s => Ok (map (fun c => JStr [c]) s)
  | _ => Err TypeError
  end.

Section Loader.

(** [json.load] on the text of a file and [json.dump] with its [indent]. *)
Variable json_load : pystr -> result json.
Variable json_dump : nat -> json -> pystr.

(** [open(CACHE_FILE, "r")] followed by reading the whole file. *)
Definition open_read : M pystr :=
  fun w => match cache_file w with
           | Absent => (Err FileNotFoundError, w)
           | Unreadable e => (Err (OSError e), w)
           | Text content => (Ok content, w)
           end.

(** [open(CACHE_FILE, "w")] followed by writing [content]: a full overwrite.
    A file that can be opened is taken to be written as a whole; a write
    that fails midway is outside this model. *)
Definition open_write (content : pystr) : M unit :=
  fun w => match cache_file w with
           | Unreadable e => (Err (OSError e), w)
           | _ => (Ok tt, mkWorld (Text content) (loader_calls w))
           end.

(** The [try]/[except FileNotFoundError] block. *)
Definition read_cache : M json :=
  try_except
    (let* text := open_read in lift (json_load text))
    (fun e => match e with
              | FileNotFoundError => Some (ret (JObj []))
              | _ => None
              end).

(** [WikipediaLoader(title).load()], with the invocation recorded. *)
Definition invoke (loader : pystr -> result (list Document)) (title : pystr)
  : M (list Document) :=
  fun w => (loader title, mkWorld (cache_file w) (loader_calls w ++ [title])).

Definition load_wikipedia_with_cache
    (loader : pystr -> result (list Document)) (title : pystr)
  : M (list Document) :=
  let* cache := read_cache in
  let* present := lift (py_in title cache) in
  if (present : bool) then
    let* entry := lift (getitem cache title) in
    let* doc_dicts := lift (iterate entry) in
    lift (comprehension Document_init doc_dicts)
  else
    let* docs := invoke loader title in
    let* cache' := lift (setitem cache title (JArr (map doc_dict docs))) in
    let* _ := open_write (json_dump 4 cache') in
    ret docs.

End Loader.

End Cache.

(** ** A JSON text codec

    The printer lays a value out as [json.dump] does with an [indent]
    (separators [","] and [": "], ASCII-only strings); the parser reads JSON
    text as [json.load] does.  Two things are kept simple: a float that is
    read is given by the text that denotes it, which is its [repr] for every
    text [json.dump] writes, and the position in a [JSONDecodeError] is 0
    unless the error is text after the value. *)

Module JsonText.

Definition hex_char (d : N) : N := if d <? 10 then 48 + d else 87 + d.

Definition hex4 (n : N) : pystr :=
  [hex_char ((n / 4096) `mod` 16); hex_char ((n / 256) `mod` 16);
   hex_char ((n / 16) `mod` 16); hex_char (n `mod` 16)].

Definition escape_char (c : N) : pystr :=
  if c =? 34 then [92; 34]
  else if c =? 92 then [92; 92]
  else if c =? 10 then [92; 110]
  else if c =? 13 then [92; 114]
  else if c =? 9 then [92; 116]
  else if c =? 8 then [92; 98]
  else if c =? 12 then [92; 102]
  else if (32 <=? c) && (c <=? 126) then [c]
  else if c <? 65536 then [92; 117] ++ hex4 c
  else [92; 117] ++ hex4 (55296 + ((c - 65536) / 1024) `mod` 1024)
       ++ [92; 117] ++ hex4 (56320 + ((c - 65536) `mod` 1024)).

Definition dump_string (s : pystr) : pystr := [34] ++ flat_map escape_char s ++ [34].

Definition newline_indent (indent level : nat) : pystr :=
  LF :: replicate (indent * level) 32.

Fixpoint dump (indent level : nat) (v : json) : pystr :=
  match v with
  | JNull => lit "null"
  | JBool true => lit "true"
  | JBool false => lit "false"
  | JInt n => lit (pretty n)
  | JFloat r =>
      if bool_decide (r = lit "nan") then lit "NaN"
      else if bool_decide (r = lit "inf") then lit "Infinity"
      else if bool_decide (r = lit "-inf") then lit "-Infinity"
      else r
  | JStr s => dump_string s
  | JArr [] => lit "[]"
  | JArr items =>
      lit "[" ++ newline_indent indent (S level)
      ++ join (lit "," ++ newline_indent indent (S level))
              (map (dump indent (S level)) items)
      ++ newline_indent indent level ++ lit "]"
  | JObj [] => lit "{}"
  | JObj fields =>
      lit "{" ++ newline_indent indent (S level)
      ++ join (lit "," ++ newline_indent indent (S level))
              (map (fun kv => dump_string (fst kv) ++ lit ": "
                              ++ dump indent (S level) (snd kv)) fields)
      ++ newline_indent indent level ++ lit "}"
  end.

Definition json_dump (indent : nat) (v : json) : pystr := dump indent 0 v.

Definition is_ws (c : N) : bool := (c =? 32) || (c =? 9) || (c =? 10) || (c =? 13).

Fixpoint skip_ws (s : pystr) : pystr :=
  match s with
  | c :: r => if is_ws c then skip_ws r else s
  | [] => []
  end.

Definition digit (c : N) : option N :=
  if (48 <=? c) && (c <=? 57) then Some (c - 48) else None.

Definition hex_digit (c : N) : option N :=
  if (48 <=? c) && (c <=? 57) then Some (c - 48)
  else if (97 <=? c) && (c <=? 102) then Some (c - 87)
  else if (65 <=? c) && (c <=? 70) then Some (c - 55)
  else None.

(** Four hexadecimal digits at the head of [s]. *)
Definition read_hex4 (s : pystr) : option (N * pystr) :=
  match s with
  | a :: b :: c :: d :: r =>
      match hex_digit a, hex_digit b, hex_digit c, hex_digit d with
      | Some x, Some y, Some z, Some t => Some (x * 4096 + y * 256 + z * 16 + t, r)
      | _, _, _, _ => None
      end
  | _ => None
  end.

(** The characters of a string literal after its opening quote. *)
Fixpoint read_string (fuel : nat) (s : pystr) (acc : pystr) : option (pystr * pystr) :=
  match fuel with
  | O => None
  | S n =>
      match s with
      | [] => None
      | c :: r =>
          if c =? 34 then Some (reverse acc, r)
          else if c =? 92 then
            match r with
            | [] => None
            | e :: r' =>
                if e =? 117 then
                  match read_hex4 r' with
                  | None => None
                  | Some (hi, r'') =>
                      match r'' with
                      | 92 :: 117 :: r3 =>
                          match read_hex4 r3 with
                          | Some (lo, r4) =>
                              if (55296 <=? hi) && (hi <=? 56319)
                                 && (56320 <=? lo) && (lo <=? 57343)
                              then read_string n r4
                                     (65536 + (hi - 55296) * 1024 + (lo - 56320) :: acc)
                              else read_string n r'' (hi :: acc)
                          | None => read_string n r'' (hi :: acc)
                          end
                      | _ => read_string n r'' (hi :: acc)
                      end
                  end
                else if e =? 110 then read_string n r' (10 :: acc)
                else if e =? 114 then read_string n r' (13 :: acc)
                else if e =? 116 then read_string n r' (9 :: acc)
                else if e =? 98 then read_string n r' (8 :: acc)
                else if e =? 102 then read_string n r' (12 :: acc)
                else if (e =? 34) || (e =? 92) || (e =? 47) then read_string n r' (e :: acc)
                else None
            end
          else if c <? 32 then None
          else read_string n r (c :: acc)
      end
  end.

(** The digits at the head of [s], and what follows them. *)
Fixpoint span_digits (s : pystr) : pystr * pystr :=
  match s with
  | c :: r => match digit c with
              | Some _ => let '(ds, r') := span_digits r in (c :: ds, r')
              | None => ([], s)
              end
  | [] => ([], [])
  end.

Definition digits_value (ds : pystr) : N :=
  fold_left (fun acc c => 10 * acc + (c - 48)) ds 0.

(** The integer part of a number: [0], or digits that do not start with [0]. *)
Definition read_integer_part (s : pystr) : option (pystr * pystr) :=
  match s with
  | c :: r =>
      if c =? 48 then Some ([c], r)
      else match digit c with
           | Some _ => let '(ds, r') := span_digits r in Some (c :: ds, r')
           | None => None
           end
  | [] => None
  end.

(** A fraction: a point followed by at least one digit. *)
Definition read_fraction (s : pystr) : pystr * pystr :=
  match s with
  | 46 :: r =>
      match span_digits r with
      | ([], _) => ([], s)
      | (ds, r') => (46 :: ds, r')
      end
  | _ => ([], s)
  end.

(** An exponent: [e] or [E], an optional sign, at least one digit. *)
Definition read_exponent (s : pystr) : pystr * pystr :=
  match s with
  | e :: r =>
      if (e =? 101) || (e =? 69) then
        let '(sign, r1) := match r with
                           | c :: t => if (c =? 45) || (c =? 43) then ([c], t) else ([], r)
                           | [] => ([], r)
                           end in
        match span_digits r1 with
        | ([], _) => ([], s)
        | (ds, r2) => (e :: sign ++ ds, r2)
        end
      else ([], s)
  | [] => ([], s)
  end.

(** A number: an integer when it has neither fraction nor exponent. *)
Definition read_number (s : pystr) : option (json * pystr) :=
  let '(sign, s1) := match s with
                     | 45 :: r => ([45], r)
                     | _ => ([], s)
                     end in
  match read_integer_part s1 with
  | None => None
  | Some (ip, r1) =>
      let '(frac, r2) := read_fraction r1 in
      let '(exp, r3) := read_exponent r2 in
      match frac, exp with
      | [], [] =>
          Some (JInt (match sign with
                      | [] => Z.of_N (digits_value ip)
                      | _ :: _ => - Z.of_N (digits_value ip)
                      end)%Z, r3)
      | _, _ => Some (JFloat (sign ++ ip ++ frac ++ exp), r3)
      end
  end.

Definition read_literal (word : pystr) (v : json) (s : pystr) : option (json * pystr) :=
  if startswith word s then Some (v, drop (length word) s) else None.

Fixpoint read_value (fuel : nat) (s : pystr) : option (json * pystr) :=
  match fuel with
  | O => None
  | S n =>
      match skip_ws s with
      | [] => None
      | c :: r =>
          if c =? 34 then
            match read_string (length r) r [] with
            | Some (str, r') => Some (JStr str, r')
            | None => None
            end
          else if c =? 91 then
            match skip_ws r with
            | 93 :: r' => Some (JArr [], r')
            | _ => read_items n r []
            end
          else if c =? 123 then
            match skip_ws r with
            | 125 :: r' => Some (JObj [], r')
            | _ => read_fields n r []
            end
          else if c =? 110 then read_literal (lit "null") JNull (c :: r)
          else if c =? 116 then read_literal (lit "true") (JBool true) (c :: r)
          else if c =? 102 then read_literal (lit "false") (JBool false) (c :: r)
          else if c =? 78 then read_literal (lit "NaN") (JFloat (lit "nan")) (c :: r)
          else if c =? 73 then read_literal (lit "Infinity") (JFloat (lit "inf")) (c :: r)
          else if startswith (lit "-Infinity") (c :: r) then
            read_literal (lit "-Infinity") (JFloat (lit "-inf")) (c :: r)
          else read_number (c :: r)
      end
  end
with read_items (fuel : nat) (s : pystr) (acc : list json) : option (json * pystr) :=
  match fuel with
  | O => None
  | S n =>
      match read_value n s with
      | None => None
      | Some (v, r) =>
          match skip_ws r with
          | 44 :: r' => read_items n r' (v :: acc)
          | 93 :: r' => Some (JArr (reverse (v :: acc)), r')
          | _ => None
          end
      end
  end
with read_fields (fuel : nat) (s : pystr) (acc : list (pystr * json))
  : option (json * pystr) :=
  match fuel with
  | O => None
  | S n =>
      match skip_ws s with
      | 34 :: r =>
          match read_string (length r) r [] with
          | None => None
          | Some (k, r1) =>
              match skip_ws r1 with
              | 58 :: r2 =>
                  match read_value n r2 with
                  | None => None
                  | Some (v, r3) =>
                      match skip_ws r3 with
                      | 44 :: r4 => read_fields n r4 (dict_set k v acc)
                      | 125 :: r4 => Some (JObj (dict_set k v acc), r4)
                      | _ => None
                      end
                  end
              | _ => None
              end
          end
      | _ => None
      end
  end.

(** [json.load]: one value, with nothing but white space after it. *)
Definition json_load (text : pystr) : result json :=
  match read_value (S (length text)) text with
  | Some (v, rest) =>
      match skip_ws rest with
      | [] => Ok v
      | extra => Err (JSONDecodeError (N.of_nat (length text - length extra)))
      end
  | None => Err (JSONDecodeError 0)
  end.

End JsonText.

(** ** The question/answer display: [display_answer] *)

Module Answer.

Import Formatter Session.

Definition HEADER : pystr := Eval cbv in lit "#### ".

(** [display_answer(question, answer)]: two calls of [display]. *)
Definition display_answer (question answer : pystr) (st : state) : state :=
  display (to_markdown answer) (display (to_markdown (HEADER ++ question)) st).

End Answer.

(** ** Observations on runs *)

Module Observations.

Import Formatter Session.

(** The lines that start with the fence marker, in order. *)
Definition fence_lines (lines : list pystr) : list pystr :=
  filter (fun l => startswith FENCE l = true) lines.

(** The characters of a text other than line breaks. *)
Definition without_line_breaks (s : pystr) : pystr := filter (fun c => c ≠ LF) s.

(** The sessions a run of actions asks for, in order. *)
Definition accessed (acts : list action) : list pystr :=
  omap (fun a => match a with
                 | Access sid => Some sid
                 | Append _ _ => None
                 end) acts.

(** No two sessions share a history object, and every history the store
    refers to exists. *)
Definition separate_histories (st : state) : Prop :=
  (∀ s1 s2 h, store st !! s1 = Some h → store st !! s2 = Some h → s1 = s2)
  ∧ (∀ s h, store st !! s = Some h → h ∈ dom (heap st)).

End Observations.

(** ** Concrete inputs *)

Module Examples.

Import Formatter Documents Session Cache.

(** A text with one fenced block: [intro], a fence, two lines, a fence, [end]. *)
Definition fence_open : pystr := Eval cbv in lit "```py".
Definition fenced_body : list pystr := Eval cbv in [lit "  x = 1 "; []].
Definition fenced_text : pystr :=
  Eval cbv in
    lit " intro" ++ [LF] ++ fence_open ++ [LF] ++ lit "  x = 1 " ++ [LF; LF]
    ++ FENCE ++ [LF] ++ lit "end ".

(** The same text cut after the fenced lines: its fence is never closed. *)
Definition unterminated_text : pystr :=
  Eval cbv in lit " intro" ++ [LF] ++ fence_open ++ [LF] ++ lit "  x = 1 " ++ [LF].

(** A text without fences: a padded line, a blank line, a bullet item. *)
Definition plain_text : pystr :=
  Eval cbv in lit "  hello  " ++ [LF; LF; BULLET] ++ lit " item" ++ [9].

(** Two document lists that differ in their metadata only. *)
Definition docs_with_metadata : list Document :=
  [mkDocument (lit "A") [(lit "source", JStr (lit "wiki"))] None;
   mkDocument (lit "B") [] None].
Definition docs_without_metadata : list Document :=
  [mkDocument (lit "A") [] None;
   mkDocument (lit "B") [(lit "page", JInt 7)] (Some (lit "b"))].

(** Sessions. *)
Definition alice : pystr := Eval cbv in lit "alice".
Definition bob : pystr := Eval cbv in lit "bob".
Definition hi : message := mkMessage (lit "human") (lit "hi").
Definition hello : message := mkMessage (lit "ai") (lit "hello").

(** A [repr] of the store that lists its session identifiers. *)
Definition repr_keys (s : gmap pystr ref) (h : gmap ref (list message)) : pystr :=
  lit "{" ++ join (lit ", ") (map fst (map_to_list s)) ++ lit "}".

Definition no_sessions : state := mkState ∅ ∅ [].
Definition one_session : state :=
  mkState {[ alice := 1%positive ]} {[ 1%positive := [hi] ]} [].

(** What happens between two accesses for [alice]: appends to her history,
    an access for [bob], an append to his. *)
Definition conversation : list action :=
  [Append 1%positive hi; Access bob; Append 2%positive hi; Append 1%positive hello].

(** The cache. *)
Definition turing : pystr := Eval cbv in lit "Turing Award".
Definition lovelace : pystr := Eval cbv in lit "Ada Lovelace".
Definition page : list Document :=
  [mkDocument (lit "X") [] None;
   mkDocument (lit "Y" ++ [BULLET; LF]) [(lit "source", JStr (lit "wiki"))]
     (Some (lit "42"))].
Definition stub_loader (title : pystr) : result (list Document) := Ok page.
Definition failing_loader (title : pystr) : result (list Document) :=
  Err (CollaboratorError 503).

Definition cached_lovelace : list (pystr * json) :=
  [(lovelace, JArr [doc_dict (mkDocument (lit "Z") [] None)])].
Definition no_file : world := mkWorld Absent [].
Definition locked_file : world := mkWorld (Unreadable PermissionError) [].
Definition broken_file : world := mkWorld (Text (lit "not json")) [].
Definition lovelace_file : world :=
  mkWorld (Text (JsonText.json_dump 4 (JObj cached_lovelace))) [].

End Examples.

(** ** The cache round trip as the specification words it *)

Module CacheObservations.

Import Documents Cache.


End CacheObservations.

(** ** More concrete inputs *)

Module MoreExamples.

Import Documents Cache.





(** A cache file whose entry for a title is a number, and one that holds an
    array instead of an object. *)
Definition malformed_file : world :=
  mkWorld (Text (JsonText.json_dump 4 (JObj [(Examples.lovelace, JInt 5)]))) [].
Definition array_file : world :=
  mkWorld (Text (JsonText.json_dump 4 (JArr [JStr Examples.lovelace]))) [].

End MoreExamples.

(** * Properties *)

Import Formatter Documents.

(** ** The embedding on small inputs *)

Section Checks.

(** An inline python block is put on lines of its own. *)
Example re_sub_inline_block :
  re_sub (lit "a```python" ++ [LF] ++ lit "x" ++ [LF] ++ lit "```b")
  = lit "a" ++ [LF] ++ lit "```python" ++ [LF] ++ lit "x" ++ [LF] ++ lit "```"
    ++ [LF] ++ lit "b".
Proof. reflexivity. Qed.

(** The line break after [python] is not the one before the closing fence. *)
Example re_sub_needs_two_line_breaks :
  re_sub (lit "```python" ++ [LF] ++ lit "```") = lit "```python" ++ [LF] ++ lit "```".
Proof. reflexivity. Qed.

(** The group is lazy: it ends at the first closing fence. *)
Example re_sub_lazy_group :
  re_sub (lit "```python" ++ [LF; LF] ++ lit "```" ++ [LF] ++ lit "```")
  = [LF] ++ lit "```python" ++ [LF; LF] ++ lit "```" ++ [LF; LF] ++ lit "```".
Proof. reflexivity. Qed.

Example split_trailing_line_break : split LF (lit "a" ++ [LF]) = [lit "a"; []].
Proof. reflexivity. Qed.

Example strip_keeps_inner_space : strip ([9; 160] ++ lit " a b " ++ [LF]) = lit "a b".
Proof. reflexivity. Qed.

(** Text is trimmed and quoted, a blank line is dropped, a fenced line is
    kept with its padding, a bullet becomes a list item. *)
Example to_markdown_mixed :
  data (to_markdown (lit "  hello  " ++ [LF; LF] ++ lit "```" ++ [LF] ++ lit " x "
                     ++ [LF] ++ lit "```" ++ [LF; BULLET] ++ lit "item"))
  = lit "> hello" ++ [LF] ++ lit "```" ++ [LF] ++ lit " x " ++ [LF] ++ lit "```"
    ++ [LF] ++ lit "> * item".
Proof. reflexivity. Qed.

(** With no file, the stub's page is loaded and cached; the file then reads
    back as the dictionary with that one title. *)
Example load_into_missing_file :
  let r := Cache.load_wikipedia_with_cache JsonText.json_load JsonText.json_dump
             Examples.stub_loader Examples.turing Examples.no_file in
  fst r = Ok Examples.page
  ∧ Cache.read_cache JsonText.json_load (snd r)
    = (Ok (JObj [(Examples.turing, JArr (map Cache.doc_dict Examples.page))]), snd r).
Proof. split; vm_compute; reflexivity. Qed.

End Checks.

(** ** Strings *)

Section StringFacts.

Implicit Types (s l p : pystr) (ls : list pystr) (c sep : N).

Lemma split_nonempty sep s : split sep s ≠ [].
Proof. destruct s as [|c r]; simpl; [done|]. destruct (c =? sep); [done|]. by destruct (split sep r). Qed.

Lemma split_cons_sep sep r : split sep (sep :: r) = [] :: split sep r.
Proof. simpl. by rewrite N.eqb_refl. Qed.

Lemma split_cons_other sep c r :
  c ≠ sep → split sep (c :: r) = (c :: hd [] (split sep r)) :: tl (split sep r).
Proof.
  intros Hc. simpl. apply N.eqb_neq in Hc. rewrite Hc.
  pose proof (split_nonempty sep r). by destruct (split sep r).
Qed.

(** No line of a split contains the separator. *)
Lemma split_no_sep sep s : Forall (fun l => sep ∉ l) (split sep s).
Proof.
  induction s as [|c r IH]; simpl.
  - repeat constructor. apply not_elem_of_nil.
  - destruct (N.eqb_spec c sep) as [->|Hc].
    + constructor; [apply not_elem_of_nil | done].
    + destruct (split sep r) as [|l ls] eqn:E; [by apply split_nonempty in E|].
      inversion IH as [|? ? Hl Hls]; subst. constructor; [|done].
      rewrite elem_of_cons. intros [->|?]; done.
Qed.

Lemma split_no_sep_line sep l : sep ∉ l → split sep l = [l].
Proof.
  induction l as [|c r IH]; [done|]. rewrite not_elem_of_cons. intros [Hc Hr].
  rewrite split_cons_other by done. by rewrite IH.
Qed.

Lemma split_app_sep sep l r : sep ∉ l → split sep (l ++ sep :: r) = l :: split sep r.
Proof.
  induction l as [|c l' IH]; simpl app.
  - intros _. apply split_cons_sep.
  - rewrite not_elem_of_cons. intros [Hc Hl].
    rewrite split_cons_other by done. by rewrite IH.
Qed.

(** Joining lines and splitting again gives the lines back. *)
Lemma split_join sep ls :
  ls ≠ [] → Forall (fun l => sep ∉ l) ls → split sep (join [sep] ls) = ls.
Proof.
  induction ls as [|l ls IH]; [done|]. intros _ Hall.
  inversion Hall as [|? ? Hl Hls]; subst.
  destruct ls as [|l' ls'].
  - simpl. by apply split_no_sep_line.
  - change (join [sep] (l :: l' :: ls')) with (l ++ sep :: join [sep] (l' :: ls')).
    rewrite split_app_sep by done. by rewrite IH.
Qed.

Lemma lstrip_suffix s : ∃ p, s = p ++ lstrip s.
Proof.
  induction s as [|c r [p IH]]; [by exists []|]. simpl.
  destruct (is_space c); [|by exists []]. exists (c :: p). simpl. by f_equal.
Qed.

Lemma lstrip_head s a : head (lstrip s) = Some a → is_space a = false.
Proof.
  induction s as [|c r IH]; [done|]. simpl.
  destruct (is_space c) eqn:E; [done|]. simpl. by intros [= <-].
Qed.

Lemma strip_elem_of s c : c ∈ strip s → c ∈ s.
Proof.
  unfold strip, rstrip. rewrite elem_of_reverse. intros Hc.
  destruct (lstrip_suffix (reverse (lstrip s))) as [p Hp].
  assert (c ∈ lstrip s) as Hc'.
  { apply elem_of_reverse. rewrite Hp. apply elem_of_app. by right. }
  destruct (lstrip_suffix s) as [q Hq]. rewrite Hq. apply elem_of_app. by right.
Qed.

(** What [strip] leaves starts and ends with a non-space character. *)
Lemma strip_head s a : head (strip s) = Some a → is_space a = false.
Proof.
  unfold strip, rstrip. rewrite head_reverse. intros H.
  destruct (lstrip_suffix (reverse (lstrip s))) as [p Hp].
  assert (last (reverse (lstrip s)) = Some a) as Hl.
  { rewrite Hp. by apply last_app_Some; left. }
  rewrite last_reverse in Hl. by apply lstrip_head in Hl.
Qed.

Lemma strip_last s a : last (strip s) = Some a → is_space a = false.
Proof. unfold strip, rstrip. rewrite last_reverse. apply lstrip_head. Qed.

Lemma startswith_app p s : startswith p (p ++ s) = true.
Proof. induction p as [|a p IH]; [done|]. simpl. by rewrite N.eqb_refl. Qed.

Lemma startswith_spec p s : startswith p s = true ↔ ∃ r, s = p ++ r.
Proof.
  split.
  - revert s. induction p as [|a p IH]; intros s H; [by exists s|].
    destruct s as [|b s]; [done|]. simpl in H.
    apply andb_true_iff in H as [Hab H]. apply N.eqb_eq in Hab as ->.
    destruct (IH _ H) as [r ->]. by exists r.
  - intros [r ->]. apply startswith_app.
Qed.

End StringFacts.

(** ** The formatter *)

Section LoopFacts.

Implicit Types (line : pystr) (lines out pre post body : list pystr) (inside : bool).

Lemma loop_app pre post st : loop (pre ++ post) st = loop post (loop pre st).
Proof. apply fold_left_app. Qed.

Lemma loop_body_fence out inside line :
  startswith FENCE line = true →
  loop_body (out, inside) line = (out ++ [line], negb inside).
Proof. intros H. unfold loop_body. by rewrite H. Qed.

(** One iteration only appends to [formatted_lines]. *)
Lemma loop_body_appends out inside line :
  loop_body (out, inside) line
  = (out ++ fst (loop_body ([], inside) line), snd (loop_body ([], inside) line)).
Proof.
  unfold loop_body. destruct (startswith FENCE line); [done|].
  destruct inside; simpl; [done|].
  destruct (strip line); simpl; by rewrite ?app_nil_r.
Qed.

(** So does the loop. *)
Lemma loop_output_appends lines out inside :
  loop lines (out, inside)
  = (out ++ fst (loop lines ([], inside)), snd (loop lines ([], inside))).
Proof.
  revert out inside.
  induction lines as [|line lines IH]; intros out inside.
  { simpl. by rewrite app_nil_r. }
  change (loop (line :: lines) (out, inside))
    with (loop lines (loop_body (out, inside) line)).
  change (loop (line :: lines) ([], inside))
    with (loop lines (loop_body ([], inside) line)).
  rewrite (loop_body_appends out).
  destruct (loop_body ([], inside) line) as [o b]. simpl.
  rewrite (IH (out ++ o) b), (IH o b). simpl. by rewrite app_assoc.
Qed.

Lemma loop_cons line lines st : loop (line :: lines) st = loop lines (loop_body st line).
Proof. done. Qed.

Lemma loop_body_inside_plain out line :
  plain line → loop_body (out, true) line = (out ++ [line], true).
Proof. intros H. unfold loop_body. by rewrite H. Qed.

Lemma loop_body_outside_plain out line :
  plain line →
  loop_body (out, false) line = (out ++ blockquote [line], false).
Proof.
  intros H. unfold loop_body, blockquote. rewrite H. simpl.
  destruct (strip line) as [|c l].
  - rewrite filter_cons_False by (intros ?; done). simpl. by rewrite app_nil_r.
  - by rewrite filter_cons_True.
Qed.

Lemma blockquote_cons line lines :
  blockquote (line :: lines) = blockquote [line] ++ blockquote lines.
Proof.
  unfold blockquote. simpl map at 2 4.
  destruct (decide (strip line = [])) as [E|E].
  - by rewrite !filter_cons_False by (intros ?; done).
  - by rewrite !filter_cons_True.
Qed.

(** Inside a code block plain lines pass through and the flag stays set. *)
Lemma loop_inside_plain lines out :
  Forall plain lines → loop lines (out, true) = (out ++ lines, true).
Proof.
  revert out. induction lines as [|line lines IH]; intros out Hall.
  { simpl. by rewrite app_nil_r. }
  inversion Hall as [|? ? Hl Hls]; subst.
  rewrite loop_cons, loop_body_inside_plain, IH by done.
  by rewrite <- app_assoc.
Qed.

(** Outside a code block plain lines are trimmed, quoted, or dropped. *)
Lemma loop_outside_plain lines out :
  Forall plain lines → loop lines (out, false) = (out ++ blockquote lines, false).
Proof.
  revert out. induction lines as [|line lines IH]; intros out Hall.
  { simpl. by rewrite app_nil_r. }
  inversion Hall as [|? ? Hl Hls]; subst.
  rewrite loop_cons, loop_body_outside_plain, IH by done.
  by rewrite <- app_assoc, <- blockquote_cons.
Qed.

End LoopFacts.

Section PreprocessFacts.

Implicit Types (s p l : pystr) (ls : list pystr) (c sep old : N).

Lemma split_app_no_sep sep p s :
  sep ∉ p → split sep (p ++ s) = (p ++ hd [] (split sep s)) :: tl (split sep s).
Proof.
  induction p as [|c p IH]; simpl app.
  - intros _. pose proof (split_nonempty sep s). by destruct (split sep s).
  - rewrite not_elem_of_cons. intros [Hc Hp].
    rewrite split_cons_other by done. by rewrite IH.
Qed.

(** Replacing a character that is not the separator, by a text without the
    separator, is done line by line. *)
Lemma split_replace_char sep old new s :
  old ≠ sep → sep ∉ new →
  split sep (replace_char old new s) = map (replace_char old new) (split sep s).
Proof.
  intros Hold Hnew. induction s as [|c r IH]; [done|].
  unfold replace_char in *. simpl flat_map.
  destruct (N.eqb_spec c old) as [->|Hc].
  - rewrite split_app_no_sep, IH by done. rewrite split_cons_other by done.
    pose proof (split_nonempty sep r). destruct (split sep r); [done|].
    simpl. by rewrite N.eqb_refl.
  - destruct (decide (c = sep)) as [->|Hs].
    + simpl app. by rewrite !split_cons_sep, IH.
    + simpl app. rewrite !split_cons_other, IH by done.
      pose proof (split_nonempty sep r). destruct (split sep r); [done|].
      simpl. apply N.eqb_neq in Hc. by rewrite Hc.
Qed.

Lemma startswith_replace_char p old n new s :
  old ∉ p → n ∉ p →
  startswith p (replace_char old (n :: new) s) = startswith p s.
Proof.
  revert s. induction p as [|a p IH]; intros s Hold Hn; [done|].
  apply not_elem_of_cons in Hold as [Hao Hold].
  apply not_elem_of_cons in Hn as [Han Hn].
  destruct s as [|c r]; [done|]. unfold replace_char in *. simpl flat_map.
  destruct (N.eqb_spec c old) as [->|Hc]; simpl.
  - apply N.eqb_neq in Hao, Han.
    by rewrite (N.eqb_sym a n), (N.eqb_sym a old), Han, Hao.
  - by rewrite IH.
Qed.

Lemma startswith_first_line p s :
  LF ∉ p → startswith p s = startswith p (hd [] (split LF s)).
Proof.
  revert s. induction p as [|a p IH]; intros s Hp; [done|].
  apply not_elem_of_cons in Hp as [Ha Hp].
  destruct s as [|c r]; [done|].
  destruct (decide (c = LF)) as [->|Hc].
  - rewrite split_cons_sep. simpl. apply N.eqb_neq in Ha.
    by rewrite (N.eqb_sym a LF), Ha.
  - rewrite split_cons_other by done. simpl. by rewrite IH.
Qed.

Lemma find_cons pat c r :
  find pat (c :: r)
  = if startswith pat (c :: r) then Some ([], drop (length pat) (c :: r))
    else match find pat r with
         | Some (b, a) => Some (c :: b, a)
         | None => None
         end.
Proof. done. Qed.

Lemma find_decompose pat s b a :
  find pat s = Some (b, a) → s = b ++ pat ++ a.
Proof.
  revert b a. induction s as [|c r IH]; intros b a; [done|].
  rewrite find_cons. destruct (startswith pat (c :: r)) eqn:E.
  - intros [= <- <-]. apply startswith_spec in E as [t ->].
    by rewrite drop_app_length.
  - destruct (find pat r) as [[b' a']|]; [|done]. intros [= <- <-].
    by rewrite (IH _ _ eq_refl) at 1.
Qed.

Lemma later_lines_suffix s1 s2 :
  Forall plain (later_lines (s1 ++ s2)) → Forall plain (later_lines s2).
Proof.
  unfold later_lines. induction s1 as [|c r IH]; [done|]. simpl app.
  destruct (decide (c = LF)) as [->|Hc].
  - rewrite split_cons_sep. simpl. intros H. apply IH.
    pose proof (split_nonempty LF (r ++ s2)).
    destruct (split LF (r ++ s2)); [done|]. by inversion H.
  - by rewrite split_cons_other.
Qed.

(** A text whose later lines are all plain has no closing fence of a python
    block, so the [re.sub] pass finds no match in it. *)
Lemma find_close_none s : Forall plain (later_lines s) → find CLOSE_PY s = None.
Proof.
  unfold later_lines. induction s as [|c r IH]; [done|]. intros H.
  destruct (decide (c = LF)) as [->|Hc].
  - rewrite split_cons_sep in H. simpl in H.
    assert (Hr : startswith FENCE r = false).
    { rewrite (startswith_first_line FENCE r) by compute_done.
      pose proof (split_nonempty LF r). destruct (split LF r); [done|].
      by inversion H. }
    assert (Hf : find CLOSE_PY r = None).
    { apply IH. pose proof (split_nonempty LF r).
      destruct (split LF r); [done|]. by inversion H. }
    rewrite find_cons, Hf.
    change (startswith CLOSE_PY (LF :: r)) with (startswith FENCE r).
    by rewrite Hr.
  - rewrite split_cons_other in H by done. simpl in H.
    assert (Hs : startswith CLOSE_PY (c :: r) = false).
    { change (startswith CLOSE_PY (c :: r))
        with ((LF =? c) && startswith FENCE r).
      apply N.eqb_neq in Hc. by rewrite (N.eqb_sym LF c), Hc. }
    rewrite find_cons, Hs. by rewrite IH.
Qed.

Lemma re_sub_fuel_no_close n s :
  Forall plain (later_lines s) → re_sub_fuel n s = s.
Proof.
  intros H. destruct n; [done|]. simpl.
  destruct (find OPEN_PY s) as [[b rest]|] eqn:E; [|done].
  rewrite (find_decompose _ _ _ _ E), app_assoc in H.
  apply later_lines_suffix in H.
  by rewrite (find_close_none rest H).
Qed.

(** The fuel of [re_sub] is enough: more of it changes nothing, so every
    match of the pattern is replaced. *)
Lemma re_sub_fuel_enough n m s :
  (length s ≤ n)%nat → (length s ≤ m)%nat → re_sub_fuel n s = re_sub_fuel m s.
Proof.
  revert m s. induction n as [|n IH]; intros m s Hn Hm.
  { destruct s; [|simpl in Hn; lia]. by destruct m. }
  destruct m as [|m].
  { destruct s; [done|simpl in Hm; lia]. }
  cbn [re_sub_fuel]. destruct (find OPEN_PY s) as [[b rest]|] eqn:Eo; [|done].
  destruct (find CLOSE_PY rest) as [[g after]|] eqn:Ec; [|done].
  apply find_decompose in Eo, Ec. subst s rest.
  rewrite !length_app in Hn, Hm. simpl in Hn, Hm.
  by rewrite (IH m after) by lia.
Qed.

Lemma re_sub_unfold s :
  re_sub s
  = match find OPEN_PY s with
    | None => s
    | Some (before, rest) =>
        match find CLOSE_PY rest with
        | None => s
        | Some (group1, after) => before ++ preserve_code group1 ++ re_sub after
        end
    end.
Proof.
  unfold re_sub. destruct s as [|c r]; [done|].
  change (length (c :: r)) with (S (length r)). cbn [re_sub_fuel].
  destruct (find OPEN_PY (c :: r)) as [[b rest]|] eqn:Eo; [|done].
  destruct (find CLOSE_PY rest) as [[g after]|] eqn:Ec; [|done].
  do 2 f_equal. apply re_sub_fuel_enough; [|done].
  apply find_decompose in Eo, Ec. subst rest.
  apply (f_equal length) in Eo. rewrite !length_app in Eo. simpl in Eo. lia.
Qed.

(** Without a bullet and without the opening of a python block, the two
    passes before the loop leave the text as it is. *)
Lemma preprocess_id s :
  BULLET ∉ s → find OPEN_PY s = None → preprocess s = s.
Proof.
  intros Hb Ho. unfold preprocess.
  assert (replace_char BULLET LIST_ITEM s = s) as ->.
  { clear Ho. induction s as [|c r IH]; [done|].
    apply not_elem_of_cons in Hb as [Hc Hr]. unfold replace_char in *.
    simpl. apply not_eq_sym, N.eqb_neq in Hc. rewrite Hc. simpl. by rewrite IH. }
  unfold re_sub. destruct (length s); simpl; by rewrite ?Ho.
Qed.

(** A text without fence lines goes through the first two passes with only
    its bullets replaced, line by line. *)
Lemma preprocess_plain s :
  Forall plain (split LF s) →
  split LF (preprocess s) = map (replace_char BULLET LIST_ITEM) (split LF s)
  ∧ Forall plain (split LF (preprocess s)).
Proof.
  intros H.
  assert (Hs : split LF (replace_char BULLET LIST_ITEM s)
               = map (replace_char BULLET LIST_ITEM) (split LF s)).
  { apply split_replace_char; [done|]. compute_done. }
  assert (Hp : Forall plain (split LF (replace_char BULLET LIST_ITEM s))).
  { rewrite Hs. apply Forall_map. eapply Forall_impl; [exact H|].
    intros l Hl. unfold plain in *. unfold LIST_ITEM. by rewrite startswith_replace_char by compute_done. }
  assert (preprocess s = replace_char BULLET LIST_ITEM s) as ->; [|done].
  unfold preprocess, re_sub. apply re_sub_fuel_no_close. unfold later_lines.
  destruct (split LF (replace_char BULLET LIST_ITEM s)); [done|].
  by inversion Hp.
Qed.

End PreprocessFacts.

Section FormatterClaims.

Implicit Types (text line : pystr) (lines out pre post body : list pystr).

Lemma loop_body_no_LF out inside line :
  Forall (fun l => LF ∉ l) out → LF ∉ line →
  Forall (fun l => LF ∉ l) (fst (loop_body (out, inside) line)).
Proof.
  intros Hout Hline. unfold loop_body.
  destruct (startswith FENCE line); simpl.
  { apply Forall_app. split; [done|]. by constructor. }
  destruct inside; simpl.
  { apply Forall_app. split; [done|]. by constructor. }
  destruct (strip line) as [|c l] eqn:E; simpl; [done|].
  apply Forall_app. split; [done|]. constructor; [|done].
  rewrite <- E. unfold QUOTE. simpl app. rewrite !elem_of_cons.
  intros [H|[H|H]]; [done|done|]. by apply strip_elem_of in H.
Qed.

Lemma loop_no_LF lines out inside :
  Forall (fun l => LF ∉ l) out → Forall (fun l => LF ∉ l) lines →
  Forall (fun l => LF ∉ l) (fst (loop lines (out, inside))).
Proof.
  revert out inside. induction lines as [|line lines IH]; intros out inside Ho Hl.
  { done. }
  inversion Hl as [|? ? H1 H2]; subst. rewrite loop_cons.
  pose proof (loop_body_no_LF out inside line Ho H1) as Hb.
  destruct (loop_body (out, inside) line) as [o b]. by apply IH.
Qed.

(** The lines of the displayed text are the [formatted_lines] of the loop. *)
Lemma output_lines text :
  formatted_lines text ≠ [] →
  split LF (data (to_markdown text)) = formatted_lines text.
Proof.
  intros Hne. simpl. apply split_join; [done|].
  apply loop_no_LF; [done|]. apply split_no_sep.
Qed.

(** C2, counterexample: the bullet replacement runs over the whole text
    before the loop, so a bullet between two fence lines is replaced by the
    list marker and the fenced line is not found in the output. *)
Lemma fenced_bullet_is_replaced : ¬ fenced_content_reproduced bullet_in_fence.
Proof.
  intros H.
  destruct (H [] FENCE [[BULLET]] FENCE []) as (o1 & o2 & Ho).
  - done.
  - done.
  - done.
  - done.
  - repeat constructor.
  - assert ([BULLET] ∉ split LF (data (to_markdown bullet_in_fence))) as Hnot
      by compute_done.
    apply Hnot. rewrite Ho. apply elem_of_app. right. apply elem_of_app. left.
    by apply list_elem_of_singleton.
Qed.

(** C2, amended: on the text as the loop receives it (bullets replaced,
    python blocks re-emitted on their own lines), the lines between an
    opening fence line and the next closing fence line are the lines of the
    output at that place, unchanged. *)
Theorem fenced_lines_pass_through text pre opening body closing post :
  split LF (preprocess text) = pre ++ opening :: body ++ closing :: post →
  inside_after pre = false →
  startswith FENCE opening = true →
  startswith FENCE closing = true →
  Forall plain body →
  split LF (data (to_markdown text))
  = output_of pre ++ opening :: body ++ closing :: output_of post.
Proof.
  intros Hsplit Hpre Hopen Hclose Hbody.
  assert (Hf : formatted_lines text
               = output_of pre ++ opening :: body ++ closing :: output_of post).
  { unfold formatted_lines, output_of, inside_after in *. rewrite Hsplit.
    rewrite loop_app.
    destruct (loop pre ([], false)) as [o b]. simpl in Hpre. subst b.
    rewrite loop_cons, loop_body_fence by done.
    rewrite loop_app, loop_inside_plain by done.
    rewrite loop_cons, loop_body_fence by done. simpl negb.
    rewrite loop_output_appends. simpl.
    rewrite <- !app_assoc. simpl. done. }
  rewrite output_lines; [done|]. rewrite Hf. by destruct (output_of pre).
Qed.

(** The amended C2 on a text with one fenced block: the padded line and the
    empty line between the fences are lines of the output. *)
Lemma fenced_lines_pass_through_witness :
  split LF (data (to_markdown Examples.fenced_text))
  = output_of [lit " intro"]
    ++ Examples.fence_open :: Examples.fenced_body ++ FENCE :: output_of [lit "end "].
Proof.
  apply fenced_lines_pass_through.
  - reflexivity.
  - reflexivity.
  - reflexivity.
  - reflexivity.
  - repeat constructor.
Defined.

(** C6: in a text none of whose lines starts a fence, the output consists of
    the trimmed non-blank lines of the text (bullets replaced), each behind
    the blockquote marker; the content after the marker is not empty and
    neither starts nor ends with whitespace; blank lines leave no line in
    the output. *)
Theorem plain_text_is_quoted text :
  Forall plain (split LF text) →
  formatted_lines text
  = blockquote (map (replace_char BULLET LIST_ITEM) (split LF text))
  ∧ Forall (fun l => ∃ c, l = QUOTE ++ c ∧ c ≠ []
                          ∧ (∀ a, head c = Some a → is_space a = false)
                          ∧ (∀ a, last c = Some a → is_space a = false))
           (formatted_lines text)
  ∧ (formatted_lines text = [] ∧ data (to_markdown text) = []
     ∨ split LF (data (to_markdown text)) = formatted_lines text).
Proof.
  intros H. destruct (preprocess_plain text H) as [Hs Hp].
  assert (Hf : formatted_lines text
               = blockquote (map (replace_char BULLET LIST_ITEM) (split LF text))).
  { unfold formatted_lines. rewrite loop_outside_plain by done. simpl.
    by rewrite Hs. }
  split; [done|]. split.
  - rewrite Hf. unfold blockquote. apply Forall_map, Forall_forall.
    intros c [Hc Hin]%list_elem_of_filter.
    apply list_elem_of_fmap in Hin as [l [-> _]].
    exists (strip l). split; [done|]. split; [done|].
    split; intros a; [apply strip_head | apply strip_last].
  - destruct (formatted_lines text) as [|l ls] eqn:E.
    + left. split; [done|]. unfold to_markdown. by rewrite E.
    + right. rewrite <- E. apply output_lines. by rewrite E.
Qed.

(** C6 on a text with a padded line, a blank line and a bullet item. *)
Lemma plain_text_is_quoted_witness :
  Forall plain (split LF Examples.plain_text)
  ∧ formatted_lines Examples.plain_text = [lit "> hello"; lit "> *  item"]
  ∧ split LF (data (to_markdown Examples.plain_text))
    = formatted_lines Examples.plain_text.
Proof.
  assert (H : Forall plain (split LF Examples.plain_text)) by repeat constructor.
  split; [exact H|].
  destruct (plain_text_is_quoted Examples.plain_text H) as (Hf & _ & Hout).
  split; [rewrite Hf; reflexivity|].
  destruct Hout as [[Hnil _]|Hout]; [|exact Hout].
  rewrite Hf in Hnil. discriminate Hnil.
Defined.

(** C8, counterexample: the [re.sub] pass re-emits a python block with a
    line break after its closing fence, so a closing fence line that goes on
    with text reaches the loop as two lines and is not a line of the output. *)
Lemma fence_line_with_trailing_text_is_split : ¬ fence_lines_kept text_after_fence.
Proof.
  intros H.
  assert (lit "```abc" ∉ split LF (data (to_markdown text_after_fence))) as Hnot
    by compute_done.
  apply Hnot. by apply (H [lit "```python"; lit "x"] (lit "```abc") []).
Qed.

(** C8, amended: a line of the text as the loop receives it (bullets
    replaced, python blocks re-emitted on their own lines) that starts with
    the fence marker flips [inside_code_block] and is a line of the output as
    it is; when it opens a block and no later line starts with the marker,
    the flag is set after each of the remaining lines, which are lines of
    the output as they are. *)
Theorem fence_line_toggles_and_is_kept text pre line post :
  split LF (preprocess text) = pre ++ line :: post →
  startswith FENCE line = true →
  loop (pre ++ [line]) ([], false)
  = (output_of pre ++ [line], negb (inside_after pre))
  ∧ (∃ o, split LF (data (to_markdown text)) = output_of pre ++ line :: o)
  ∧ (inside_after pre = false → Forall plain post →
     (∀ k, loop (pre ++ line :: take k post) ([], false)
           = (output_of pre ++ line :: take k post, true))
     ∧ split LF (data (to_markdown text)) = output_of pre ++ line :: post).
Proof.
  intros Hsplit Hline.
  assert (Hstep : loop (pre ++ [line]) ([], false)
                  = (output_of pre ++ [line], negb (inside_after pre))).
  { unfold output_of, inside_after. rewrite loop_app.
    destruct (loop pre ([], false)) as [o b].
    by rewrite loop_cons, loop_body_fence. }
  assert (Hout : ∀ o, formatted_lines text = output_of pre ++ line :: o →
                      split LF (data (to_markdown text)) = output_of pre ++ line :: o).
  { intros o Ho. rewrite output_lines; [done|]. rewrite Ho.
    by destruct (output_of pre). }
  split; [done|]. split.
  - exists (fst (loop post ([], negb (inside_after pre)))). apply Hout.
    unfold formatted_lines. rewrite Hsplit.
    change (pre ++ line :: post) with (pre ++ [line] ++ post).
    rewrite app_assoc, loop_app, Hstep, loop_output_appends. simpl.
    by rewrite <- app_assoc.
  - intros Hpre Hpost.
    assert (Hk : ∀ lines, Forall plain lines →
                   loop (pre ++ line :: lines) ([], false)
                   = (output_of pre ++ line :: lines, true)).
    { intros lines Hl. change (pre ++ line :: lines) with (pre ++ [line] ++ lines).
      rewrite app_assoc, loop_app, Hstep, Hpre. simpl negb.
      rewrite loop_inside_plain by done. by rewrite <- app_assoc. }
    split.
    + intros k. apply Hk. by apply Forall_take.
    + apply Hout. unfold formatted_lines. by rewrite Hsplit, Hk.
Qed.

(** The amended C8 on a text whose fence is never closed: the fence line is
    kept, and so are the two lines after it, with the flag set. *)
Lemma fence_line_toggles_and_is_kept_witness :
  loop ([lit " intro"] ++ [Examples.fence_open]) ([], false)
  = ([lit "> intro"; Examples.fence_open], true)
  ∧ (∀ k, loop ([lit " intro"] ++ Examples.fence_open :: take k Examples.fenced_body)
               ([], false)
          = ([lit "> intro"] ++ Examples.fence_open :: take k Examples.fenced_body,
             true))
  ∧ split LF (data (to_markdown Examples.unterminated_text))
    = [lit "> intro"] ++ Examples.fence_open :: Examples.fenced_body.
Proof.
  destruct (fence_line_toggles_and_is_kept Examples.unterminated_text
              [lit " intro"] Examples.fence_open Examples.fenced_body)
    as (Hkept & _ & Hrest).
  - reflexivity.
  - reflexivity.
  - split; [exact Hkept|]. apply Hrest; [reflexivity|repeat constructor].
Defined.

End FormatterClaims.

(** ** The document concatenator *)

Section DocumentClaims.

Implicit Types (d : Document) (ds : list Document).

(** On a list the concatenator joins the contents with a double line break;
    the empty list gives the empty string and a singleton its content. *)
Lemma format_docs_list ds :
  format_docs (Some ds) = Ok (join SEP (map page_content ds))
  ∧ format_docs (Some []) = Ok []
  ∧ ∀ d, format_docs (Some [d]) = Ok (page_content d).
Proof. done. Qed.

(** C3: the docstring promises the empty string for [None]; the generator
    expression iterates its argument, so [None] raises [TypeError]. *)
Theorem format_docs_none_raises :
  format_docs None = Err TypeError ∧ format_docs None ≠ Ok [].
Proof. done. Qed.

(** C10: two lists of the same length whose documents agree on
    [page_content] position by position are concatenated to the same
    string, whatever their metadata. *)
Theorem format_docs_ignores_metadata ds1 ds2 :
  length ds1 = length ds2 →
  (∀ i d1 d2, ds1 !! i = Some d1 → ds2 !! i = Some d2 →
              page_content d1 = page_content d2) →
  format_docs (Some ds1) = format_docs (Some ds2).
Proof.
  intros Hlen Hpc. unfold format_docs. do 2 f_equal.
  revert ds2 Hlen Hpc. induction ds1 as [|a ds1 IH]; intros [|b ds2] Hlen Hpc;
    try done.
  simpl. f_equal.
  - by apply (Hpc 0%nat).
  - apply IH; [by injection Hlen|]. intros i. apply (Hpc (S i)).
Qed.

(** C10 on two lists that differ in their metadata only. *)
Lemma format_docs_ignores_metadata_witness :
  format_docs (Some Examples.docs_with_metadata)
  = format_docs (Some Examples.docs_without_metadata).
Proof.
  apply format_docs_ignores_metadata.
  - reflexivity.
  - intros [|[|i]] d1 d2 H1 H2; simpl in H1, H2.
    + injection H1 as <-. injection H2 as <-. reflexivity.
    + injection H1 as <-. injection H2 as <-. reflexivity.
    + discriminate H1.
Defined.

End DocumentClaims.

(** ** The session accessor *)

Section SessionClaims.

Import Session.

Variable repr_store : gmap pystr ref → gmap ref (list message) → pystr.

Local Abbreviation get := (get_session_history repr_store).

Implicit Types (sid : pystr) (st : state) (h : ref) (acts : list action).

Lemma get_existing sid st h :
  store st !! sid = Some h →
  get sid st
  = (h, display (to_markdown (STORE_HEADER ++ repr_store (store st) (heap st))) st).
Proof. intros H. unfold get_session_history. simpl. by rewrite H. Qed.

Lemma get_new sid st :
  store st !! sid = None →
  get sid st
  = (fresh (dom (heap st)),
     mkState (<[sid := fresh (dom (heap st))]> (store st))
             (<[fresh (dom (heap st)) := []]> (heap st))
             (displayed st
              ++ [to_markdown (STORE_HEADER ++ repr_store (store st) (heap st))])).
Proof. intros H. unfold get_session_history. simpl. by rewrite H. Qed.

(** Once a session has its history object, nothing the program does with the
    store takes it away, and the object holds what was appended to it. *)
Lemma run_keeps_history sid h acts st msgs :
  store st !! sid = Some h →
  heap st !! h = Some msgs →
  store (run repr_store acts st) !! sid = Some h
  ∧ heap (run repr_store acts st) !! h = Some (msgs ++ appended h acts).
Proof.
  revert st msgs. induction acts as [|a acts IH]; intros st msgs Hs Hh.
  { simpl. by rewrite app_nil_r. }
  change (run repr_store (a :: acts) st)
    with (run repr_store acts (perform repr_store st a)).
  destruct a as [sid'|h' m].
  - (* another access *)
    change (appended h (Access sid' :: acts)) with (appended h acts).
    apply IH; simpl.
    + destruct (store st !! sid') as [h'|] eqn:E.
      * by rewrite (get_existing _ _ _ E).
      * rewrite (get_new _ _ E). simpl. rewrite lookup_insert_ne; [done|].
        intros ->. by rewrite E in Hs.
    + destruct (store st !! sid') as [h'|] eqn:E.
      * by rewrite (get_existing _ _ _ E).
      * rewrite (get_new _ _ E). simpl. rewrite lookup_insert_ne; [done|].
        intros Heq. pose proof (is_fresh (dom (heap st))) as Hfresh.
        rewrite Heq in Hfresh. apply Hfresh, elem_of_dom. by eexists.
  - (* an append *)
    simpl perform. unfold appended. simpl omap.
    destruct (decide (h' = h)) as [->|Hne].
    + destruct (IH (add_message h m st) (msgs ++ [m])) as [H1 H2].
      * done.
      * simpl. by rewrite lookup_alter_eq, Hh.
      * split; [done|]. rewrite H2. by rewrite <- app_assoc.
    + apply IH; [done|]. simpl. by rewrite lookup_alter_ne.
Qed.

(** C7: the first access for a session creates a new, empty history; after
    anything the program does with the store, a later access for the same
    session returns that same object, which holds the messages appended to
    it in between. *)
Theorem session_history_get_or_create sid st acts :
  store st !! sid = None →
  let first := get_session_history repr_store sid st in
  let second := get_session_history repr_store sid (run repr_store acts (snd first)) in
  (fst first ∉ dom (heap st))
  ∧ heap (snd first) !! fst first = Some []
  ∧ fst second = fst first
  ∧ heap (snd second) !! fst second = Some (appended (fst first) acts).
Proof.
  intros Hnew. simpl. rewrite (get_new _ _ Hnew). simpl.
  set (h := fresh (dom (heap st))).
  set (st1 := mkState _ _ _).
  split; [apply is_fresh|]. split; [by rewrite lookup_insert_eq|].
  destruct (run_keeps_history sid h acts st1 []) as [Hs Hh].
  { simpl. by rewrite lookup_insert_eq. }
  { simpl. by rewrite lookup_insert_eq. }
  rewrite (get_existing _ _ _ Hs). simpl. done.
Qed.

(** C9: an access for a session that is in the store returns its entry and
    leaves the store, and the objects it refers to, as they were. *)
Theorem access_existing_keeps_store sid st h :
  store st !! sid = Some h →
  fst (get_session_history repr_store sid st) = h
  ∧ store (snd (get_session_history repr_store sid st)) = store st
  ∧ heap (snd (get_session_history repr_store sid st)) = heap st.
Proof. intros H. by rewrite (get_existing _ _ _ H). Qed.

End SessionClaims.

(** C7 on an empty store: [alice] gets a new history; after appends to it and
    an access for [bob], her history is the same object and holds the two
    messages appended to it. *)
Lemma session_history_get_or_create_witness :
  let first := Session.get_session_history Examples.repr_keys Examples.alice
                 Examples.no_sessions in
  let second := Session.get_session_history Examples.repr_keys Examples.alice
                  (Session.run Examples.repr_keys Examples.conversation (snd first)) in
  (fst first ∉ dom (Session.heap Examples.no_sessions))
  ∧ Session.heap (snd first) !! fst first = Some []
  ∧ fst second = fst first
  ∧ Session.heap (snd second) !! fst second
    = Some (Session.appended (fst first) Examples.conversation).
Proof. apply session_history_get_or_create. reflexivity. Defined.

(** C9 on a store that holds [alice]. *)
Lemma access_existing_keeps_store_witness :
  let r := Session.get_session_history Examples.repr_keys Examples.alice
             Examples.one_session in
  fst r = 1%positive
  ∧ Session.store (snd r) = Session.store Examples.one_session
  ∧ Session.heap (snd r) = Session.heap Examples.one_session.
Proof. apply access_existing_keeps_store. reflexivity. Defined.

(** ** The cached page loader *)

Section CacheClaims.

Import Cache.

Variable json_load : pystr → result json.
Variable json_dump : nat → json → pystr.

Local Abbreviation load := (load_wikipedia_with_cache json_load json_dump).
Local Abbreviation read := (read_cache json_load).

Implicit Types (w : world) (title : pystr) (docs : list Document)
  (d : list (pystr * json)) (loader : pystr → result (list Document)).

Lemma dict_set_absent title v d :
  dict_get title d = None → dict_set title v d = d ++ [(title, v)].
Proof.
  induction d as [|[k x] d IH]; [done|]. simpl.
  destruct (decide (k = title)); [done|]. intros H. by rewrite IH.
Qed.




(** Reading the cache never changes the world. *)
Lemma read_cache_world w : snd (read w) = w.
Proof.
  unfold read_cache, try_except, bind, open_read, lift, ret.
  destruct (cache_file w); simpl; [done|done|].
  destruct (json_load content) as [c|e]; [done|]. by destruct e.
Qed.

(** After a successful read the cache file can be written. *)
Lemma read_cache_writable w c content :
  read w = (Ok c, w) →
  open_write content w = (Ok tt, mkWorld (Text content) (loader_calls w)).
Proof.
  unfold read_cache, try_except, bind, open_read, open_write, lift, ret.
  by destruct (cache_file w).
Qed.

(** The loader on a miss, once the cache was read as the dictionary [d]. *)
Lemma load_miss loader title w d :
  read w = (Ok (JObj d), w) →
  dict_get title d = None →
  load loader title w
  = match loader title with
    | Ok docs =>
        (Ok docs,
         mkWorld (Text (json_dump 4 (JObj (d ++ [(title, JArr (map doc_dict docs))]))))
                 (loader_calls w ++ [title]))
    | Err e => (Err e, mkWorld (cache_file w) (loader_calls w ++ [title]))
    end.
Proof.
  intros Hread Habsent. unfold load_wikipedia_with_cache.
  unfold bind at 1. rewrite Hread.
  unfold bind at 1. unfold lift at 1. simpl py_in. rewrite Habsent.
  rewrite bool_decide_eq_false_2 by (by intros [? ?]).
  unfold bind at 1. unfold invoke.
  destruct (loader title) as [docs|e]; [|done].
  unfold bind at 1. unfold lift. simpl setitem.
  rewrite (dict_set_absent _ _ _ Habsent).
  unfold bind, ret.
  pose proof (read_cache_writable w _
                (json_dump 4 (JObj (d ++ [(title, JArr (map doc_dict docs))])))
                Hread) as Hw.
  unfold open_write in *. simpl. by destruct (cache_file w).
Qed.



(** C4: a missing cache file is read as the empty dictionary and the call
    goes on as a miss; a file that cannot be opened, or whose text
    [json.load] rejects, makes the call raise that very exception, with the
    world untouched and the collaborator not invoked. *)
Theorem cache_read_failures loader title w :
  (cache_file w = Absent →
   read_cache json_load w = (Ok (JObj []), w)
   ∧ load_wikipedia_with_cache json_load json_dump loader title w
     = match loader title with
       | Ok docs =>
           (Ok docs,
            mkWorld (Text (json_dump 4 (JObj [(title, JArr (map doc_dict docs))])))
                    (loader_calls w ++ [title]))
       | Err e => (Err e, mkWorld Absent (loader_calls w ++ [title]))
       end)
  ∧ (∀ e, cache_file w = Unreadable e → load_wikipedia_with_cache json_load json_dump loader title w = (Err (OSError e), w))
  ∧ (∀ content e, cache_file w = Text content → json_load content = Err e →
                  e ≠ FileNotFoundError → load_wikipedia_with_cache json_load json_dump loader title w = (Err e, w)).
Proof.
  split; [|split].
  - intros Habs.
    assert (Hread : read w = (Ok (JObj []), w)).
    { unfold read_cache, try_except, bind, open_read. by rewrite Habs. }
    split; [done|]. rewrite (load_miss _ _ _ [] Hread) by done.
    by rewrite Habs.
  - intros e He. unfold load_wikipedia_with_cache, bind, read_cache, try_except,
      bind, open_read. by rewrite He.
  - intros content e Hc He Hne.
    unfold load_wikipedia_with_cache, bind, read_cache, try_except, bind,
      open_read, lift. rewrite Hc, He. by destruct e.
Qed.


End CacheClaims.



(** C4 with the JSON text codec: no file, a file that cannot be opened, and
    a file whose text is not JSON. *)
Lemma cache_read_failures_witness :
  let load := Cache.load_wikipedia_with_cache JsonText.json_load JsonText.json_dump in
  fst (load Examples.stub_loader Examples.turing Examples.no_file) = Ok Examples.page
  ∧ load Examples.stub_loader Examples.turing Examples.locked_file
    = (Err (OSError PermissionError), Examples.locked_file)
  ∧ load Examples.stub_loader Examples.turing Examples.broken_file
    = (Err (JSONDecodeError 0), Examples.broken_file).
Proof.
  cbv zeta. split; [|split].
  - destruct (cache_read_failures JsonText.json_load JsonText.json_dump
                Examples.stub_loader Examples.turing Examples.no_file)
      as [Habsent _].
    destruct (Habsent eq_refl) as [_ Hload]. rewrite Hload. reflexivity.
  - destruct (cache_read_failures JsonText.json_load JsonText.json_dump
                Examples.stub_loader Examples.turing Examples.locked_file)
      as (_ & Hlocked & _).
    apply Hlocked. reflexivity.
  - destruct (cache_read_failures JsonText.json_load JsonText.json_dump
                Examples.stub_loader Examples.turing Examples.broken_file)
      as (_ & _ & Hbroken).
    apply (Hbroken (lit "not json")); [reflexivity|reflexivity|discriminate].
Defined.


(** * Further properties of the code *)

(** ** The formatter beyond the claims *)

Section FormatterExtras.

Import Observations.

Implicit Types (text line s : pystr) (lines out : list pystr) (c : N).

Lemma loop_body_plain_flag out inside line :
  plain line → snd (loop_body (out, inside) line) = inside.
Proof.
  intros H. destruct inside.
  - by rewrite loop_body_inside_plain.
  - by rewrite loop_body_outside_plain.
Qed.

Lemma fence_lines_cons_fence line lines :
  startswith FENCE line = true → fence_lines (line :: lines) = line :: fence_lines lines.
Proof. intros H. unfold fence_lines. by rewrite filter_cons_True. Qed.

Lemma fence_lines_cons_plain line lines :
  plain line → fence_lines (line :: lines) = fence_lines lines.
Proof.
  intros H. unfold fence_lines, plain in *.
  rewrite filter_cons_False; [done|]. by rewrite H.
Qed.

Lemma fence_lines_app l1 l2 : fence_lines (l1 ++ l2) = fence_lines l1 ++ fence_lines l2.
Proof. apply filter_app. Qed.

Lemma loop_flag_parity lines out inside :
  snd (loop lines (out, inside))
  = xorb inside (Nat.odd (length (fence_lines lines))).
Proof.
  revert out inside. induction lines as [|line lines IH]; intros out inside.
  { simpl. by destruct inside. }
  rewrite loop_cons. destruct (startswith FENCE line) eqn:E.
  - rewrite loop_body_fence, IH, fence_lines_cons_fence by done.
    cbn [length]. rewrite Nat.odd_succ, <- Nat.negb_odd.
    by destruct inside, (Nat.odd (length (fence_lines lines))).
  - pose proof (loop_body_plain_flag out inside line E) as Hflag.
    destruct (loop_body (out, inside) line) as [o b]. simpl in Hflag. subst b.
    by rewrite IH, fence_lines_cons_plain.
Qed.

(** X1: the flag [inside_code_block] after any lines is the parity of the
    number of fence lines among them: set after an odd number. *)
Theorem inside_flag_is_fence_parity lines :
  inside_after lines = Nat.odd (length (fence_lines lines)).
Proof. unfold inside_after. by rewrite loop_flag_parity. Qed.

Lemma fence_lines_quoted (ls : list pystr) :
  fence_lines (map (fun l => QUOTE ++ l) ls) = [].
Proof.
  induction ls as [|l ls IH]; [done|]. simpl map.
  by rewrite fence_lines_cons_plain.
Qed.

Lemma loop_fence_lines lines out inside :
  fence_lines (fst (loop lines (out, inside))) = fence_lines out ++ fence_lines lines.
Proof.
  revert out inside. induction lines as [|line lines IH]; intros out inside.
  { simpl. by rewrite app_nil_r. }
  rewrite loop_cons. destruct (startswith FENCE line) eqn:E.
  - rewrite loop_body_fence, IH by done.
    rewrite fence_lines_app, (fence_lines_cons_fence line []),
      (fence_lines_cons_fence line lines) by done.
    by rewrite <- app_assoc.
  - rewrite (fence_lines_cons_plain line lines) by done. destruct inside.
    + rewrite loop_body_inside_plain, IH, fence_lines_app by done.
      rewrite (fence_lines_cons_plain line []) by done.
      by rewrite app_nil_r.
    + rewrite loop_body_outside_plain, IH, fence_lines_app by done.
      unfold blockquote. by rewrite fence_lines_quoted, app_nil_r.
Qed.

(** X2: the fence lines of the output are the fence lines the loop received,
    all of them and in the same order: quoting never makes a fence and no
    fence is dropped. *)
Theorem output_keeps_fence_lines text :
  fence_lines (formatted_lines text) = fence_lines (split LF (preprocess text)).
Proof. unfold formatted_lines. by rewrite loop_fence_lines. Qed.

Lemma loop_body_origin out inside line :
  fst (loop_body (out, inside) line) = out
  ∨ fst (loop_body (out, inside) line) = out ++ [line]
  ∨ (plain line ∧ strip line ≠ []
     ∧ fst (loop_body (out, inside) line) = out ++ [QUOTE ++ strip line]).
Proof.
  destruct (startswith FENCE line) eqn:E.
  { right; left. by rewrite loop_body_fence. }
  destruct inside.
  { right; left. by rewrite loop_body_inside_plain. }
  rewrite loop_body_outside_plain by done. unfold blockquote.
  change (map strip [line]) with [strip line].
  destruct (decide (strip line = [])) as [Es|Es].
  - left. rewrite filter_cons_False by (intros ?; done). simpl. by rewrite app_nil_r.
  - right; right. by rewrite filter_cons_True.
Qed.

Lemma loop_origin lines out inside :
  ∃ new, fst (loop lines (out, inside)) = out ++ new
         ∧ (length new ≤ length lines)%nat
         ∧ Forall (fun o => o ∈ lines
                            ∨ ∃ l, l ∈ lines ∧ plain l ∧ strip l ≠ []
                                   ∧ o = QUOTE ++ strip l) new.
Proof.
  revert out inside. induction lines as [|line lines IH]; intros out inside.
  { exists []. simpl. by rewrite app_nil_r. }
  rewrite loop_cons.
  pose proof (loop_body_origin out inside line) as Hb.
  destruct (loop_body (out, inside) line) as [o b]. simpl in Hb.
  destruct (IH o b) as (new & Hnew & Hlen & Hall).
  assert (Hall' : Forall (fun o => o ∈ line :: lines
                            ∨ ∃ l, l ∈ line :: lines ∧ plain l ∧ strip l ≠ []
                                   ∧ o = QUOTE ++ strip l) new).
  { eapply Forall_impl; [exact Hall|]. intros x [Hx|(l & Hl & Hp)].
    - left. by right.
    - right. exists l. split; [by right|done]. }
  destruct Hb as [->|[->|(Hp & Hs & ->)]].
  - exists new. split; [done|]. split; [simpl; lia|done].
  - exists (line :: new). rewrite Hnew, <- app_assoc. split; [done|].
    split; [simpl; lia|]. constructor; [|done]. left. by left.
  - exists ((QUOTE ++ strip line) :: new). rewrite Hnew, <- app_assoc.
    split; [done|]. split; [simpl; lia|]. constructor; [|done].
    right. exists line. split; [by left|done].
Qed.

(** X3: the loop emits at most one line per line it receives, and every
    output line is either a received line as it is or the blockquote marker
    followed by the non-empty trimmed content of a received non-fence line. *)
Theorem output_lines_come_from_input text :
  (length (formatted_lines text) ≤ length (split LF (preprocess text)))%nat
  ∧ Forall (fun o => o ∈ split LF (preprocess text)
                     ∨ ∃ l, l ∈ split LF (preprocess text) ∧ plain l
                            ∧ strip l ≠ [] ∧ o = QUOTE ++ strip l)
           (formatted_lines text).
Proof.
  unfold formatted_lines.
  destruct (loop_origin (split LF (preprocess text)) [] false)
    as (new & -> & Hlen & Hall).
  done.
Qed.

Lemma without_line_breaks_app s1 s2 :
  without_line_breaks (s1 ++ s2) = without_line_breaks s1 ++ without_line_breaks s2.
Proof. apply filter_app. Qed.

Lemma without_line_breaks_preserve_code g :
  without_line_breaks (preserve_code g)
  = without_line_breaks (OPEN_PY ++ g ++ CLOSE_PY).
Proof.
  change (preserve_code g) with ([LF] ++ OPEN_PY ++ g ++ CLOSE_PY ++ [LF]).
  rewrite !without_line_breaks_app.
  change (without_line_breaks [LF]) with (@nil N).
  by rewrite app_nil_r.
Qed.

Lemma re_sub_fuel_line_breaks n s :
  without_line_breaks (re_sub_fuel n s) = without_line_breaks s.
Proof.
  revert s. induction n as [|n IH]; intros s; [done|]. cbn [re_sub_fuel].
  destruct (find OPEN_PY s) as [[b rest]|] eqn:Eo; [|done].
  destruct (find CLOSE_PY rest) as [[g after]|] eqn:Ec; [|done].
  apply find_decompose in Eo, Ec. subst s rest.
  rewrite !without_line_breaks_app, without_line_breaks_preserve_code, IH.
  by rewrite !without_line_breaks_app, <- !app_assoc.
Qed.

(** X4: the [re.sub] pass changes a text by inserting line breaks only: with
    the line breaks taken out, the text after the pass is the text before. *)
Theorem re_sub_only_inserts_line_breaks s :
  without_line_breaks (re_sub s) = without_line_breaks s.
Proof. apply re_sub_fuel_line_breaks. Qed.

Lemma re_sub_elem_of c s : c ∈ re_sub s → c ∈ s ∨ c = LF.
Proof.
  intros Hc. destruct (decide (c = LF)) as [|Hne]; [by right|]. left.
  assert (c ∈ without_line_breaks (re_sub s)) as H.
  { by apply list_elem_of_filter. }
  unfold re_sub in H. rewrite re_sub_fuel_line_breaks in H.
  by apply list_elem_of_filter in H as [_ H].
Qed.

Lemma replace_char_elem_of c old new s :
  c ∈ replace_char old new s → c ∈ new ∨ (c ∈ s ∧ c ≠ old).
Proof.
  induction s as [|a r IH]; [by intros ?%elem_of_nil|].
  unfold replace_char in *. simpl flat_map.
  intros [H|H]%elem_of_app.
  - destruct (N.eqb_spec a old) as [->|Ha]; [by left|].
    apply list_elem_of_singleton in H as ->. right. split; [by left|done].
  - destruct (IH H) as [?|[? ?]]; [by left|]. right. split; [by right|done].
Qed.

Lemma split_elem_of sep s l c : l ∈ split sep s → c ∈ l → c ∈ s.
Proof.
  revert l. induction s as [|a r IH]; intros l.
  { simpl. intros ->%list_elem_of_singleton. done. }
  destruct (decide (a = sep)) as [->|Ha].
  - rewrite split_cons_sep. intros [->|Hl]%elem_of_cons Hc.
    + by apply elem_of_nil in Hc.
    + right. by apply (IH l).
  - rewrite split_cons_other by done.
    pose proof (split_nonempty sep r) as Hne.
    destruct (split sep r) as [|l0 ls]; [done|]. simpl.
    intros [->|Hl]%elem_of_cons Hc.
    + apply elem_of_cons in Hc as [->|Hc]; [by left|].
      right. apply (IH l0); [by left|done].
    + right. apply (IH l); [by right|done].
Qed.

Lemma join_elem_of sep ls c :
  c ∈ join sep ls → c ∈ sep ∨ ∃ l, l ∈ ls ∧ c ∈ l.
Proof.
  induction ls as [|l ls IH]; [by intros ?%elem_of_nil|].
  destruct ls as [|l' ls'].
  - simpl. intros H. right. exists l. split; [by left|done].
  - change (join sep (l :: l' :: ls')) with (l ++ sep ++ join sep (l' :: ls')).
    intros [H|[H|H]%elem_of_app]%elem_of_app.
    + right. exists l. split; [by left|done].
    + by left.
    + destruct (IH H) as [?|(x & Hx & Hc)]; [by left|].
      right. exists x. split; [by right|done].
Qed.

(** X5: every character of the displayed text is a character of the input
    other than the bullet, or one of the four the formatter writes itself:
    line feed, [>], space and [*].  In particular no bullet is displayed. *)
Theorem output_alphabet text c :
  c ∈ data (to_markdown text) →
  (c ∈ text ∧ c ≠ BULLET) ∨ c ∈ [LF; 62; 32; 42].
Proof.
  simpl. intros [H|(o & Ho & Hc)]%join_elem_of.
  { right. apply list_elem_of_singleton in H as ->. by left. }
  assert (Hline : ∀ l, l ∈ split LF (preprocess text) → c ∈ l →
                       (c ∈ text ∧ c ≠ BULLET) ∨ c ∈ [LF; 62; 32; 42]).
  { intros l Hl Hcl. pose proof (split_elem_of _ _ _ _ Hl Hcl) as Hp.
    unfold preprocess in Hp. apply re_sub_elem_of in Hp as [Hp| ->].
    - apply replace_char_elem_of in Hp as [Hp|Hp]; [|by left].
      right. revert Hp. unfold LIST_ITEM. rewrite !elem_of_cons.
      intros [->|[->|[->|[->|[]%elem_of_nil]]]]; set_solver.
    - right. by left. }
  unfold formatted_lines in Ho.
  destruct (loop_origin (split LF (preprocess text)) [] false)
    as (new & Hnew & _ & Hall).
  rewrite Hnew in Ho. simpl in Ho.
  rewrite Forall_forall in Hall. destruct (Hall o Ho) as [Hin|(l & Hl & _ & _ & ->)].
  - by apply (Hline o).
  - apply elem_of_app in Hc as [Hc|Hc].
    + right. revert Hc. unfold QUOTE. rewrite !elem_of_cons.
      intros [->|[->|[]%elem_of_nil]]; set_solver.
    + apply (Hline l Hl). by apply strip_elem_of.
Qed.

Lemma lstrip_nil s : lstrip s = [] → Forall (fun c => is_space c = true) s.
Proof.
  induction s as [|a r IH]; [done|]. simpl.
  destruct (is_space a) eqn:E; [|done]. intros H. constructor; [done|by apply IH].
Qed.

(** A line that [strip] empties consists of whitespace. *)
Lemma strip_nil s : strip s = [] → Forall (fun c => is_space c = true) s.
Proof.
  unfold strip, rstrip. intros H.
  assert (lstrip (reverse (lstrip s)) = []) as H1.
  { apply (f_equal reverse) in H. by rewrite reverse_involutive in H. }
  apply lstrip_nil in H1. apply Forall_reverse in H1.
  rewrite reverse_involutive in H1.
  destruct (lstrip s) as [|a t] eqn:E; [by apply lstrip_nil|].
  pose proof (lstrip_head s a) as Ha. rewrite E in Ha. specialize (Ha eq_refl).
  inversion H1; subst. congruence.
Qed.

Lemma blank_line_plain line : strip line = [] → plain line.
Proof.
  intros H%strip_nil. unfold plain.
  destruct (startswith FENCE line) eqn:E; [|done].
  apply startswith_spec in E as [r ->].
  inversion H as [|? ? Ha _]; subst. discriminate Ha.
Qed.

Lemma blank_line_replace line :
  strip line = [] → replace_char BULLET LIST_ITEM line = line.
Proof.
  intros H%strip_nil. induction line as [|a r IH]; [done|].
  inversion H as [|? ? Ha Hr]; subst. unfold replace_char in *. simpl.
  destruct (N.eqb_spec a BULLET) as [->|]; [done|]. simpl. by rewrite IH.
Qed.

Lemma blockquote_blank (ls : list pystr) :
  Forall (fun l => strip l = []) ls →
  blockquote (map (replace_char BULLET LIST_ITEM) ls) = [].
Proof.
  induction 1 as [|l ls Hl Hls IH]; [done|]. simpl map.
  rewrite blockquote_cons, IH, app_nil_r. unfold blockquote.
  change (map strip [replace_char BULLET LIST_ITEM l])
    with [strip (replace_char BULLET LIST_ITEM l)].
  rewrite (blank_line_replace l Hl), Hl.
  by rewrite filter_cons_False by (intros ?; done).
Qed.

(** X6: a text all of whose lines are blank (empty or whitespace only) is
    displayed as the empty text. *)
Theorem blank_text_gives_empty_output text :
  Forall (fun l => strip l = []) (split LF text) →
  data (to_markdown text) = [].
Proof.
  intros H.
  assert (Hplain : Forall plain (split LF text)).
  { eapply Forall_impl; [exact H|]. apply blank_line_plain. }
  destruct (preprocess_plain text Hplain) as [Hs Hp].
  simpl. unfold formatted_lines. rewrite loop_outside_plain by done. simpl.
  by rewrite Hs, blockquote_blank.
Qed.

(** X6 on a text of three blank lines. *)
Lemma blank_text_gives_empty_output_witness :
  data (to_markdown (lit "  " ++ [LF; 9; LF])) = [].
Proof. apply blank_text_gives_empty_output. repeat constructor. Defined.


End FormatterExtras.

(** ** The question/answer display *)

Section AnswerExtras.

Import Session Answer.

Implicit Types (question answer s pat : pystr) (st : state) (c : N).

Lemma find_missing_char pat s c : c ∈ pat → c ∉ s → find pat s = None.
Proof.
  intros Hpat Hs. induction s as [|a r IH]; [done|].
  rewrite find_cons.
  destruct (startswith pat (a :: r)) eqn:E.
  - apply startswith_spec in E as [t E]. exfalso. apply Hs. rewrite E.
    apply elem_of_app. by left.
  - rewrite IH; [done|]. intros H. apply Hs. by right.
Qed.

Lemma replace_char_app old new s1 s2 :
  replace_char old new (s1 ++ s2) = replace_char old new s1 ++ replace_char old new s2.
Proof. unfold replace_char. apply flat_map_app. Qed.

(** A one-line text that starts with a sharp sign is shown as one quoted
    line, with its bullets replaced and its right end trimmed. *)
Lemma to_markdown_header question :
  LF ∉ question →
  to_markdown (HEADER ++ question)
  = mkMarkdown (QUOTE ++ rstrip (HEADER ++ replace_char BULLET LIST_ITEM question)).
Proof.
  intros Hq. unfold to_markdown. f_equal.
  set (line := HEADER ++ replace_char BULLET LIST_ITEM question).
  assert (Hrep : replace_char BULLET LIST_ITEM (HEADER ++ question) = line).
  { by rewrite replace_char_app. }
  assert (Hline : LF ∉ line).
  { unfold line. intros [H|H]%elem_of_app.
    - revert H. unfold HEADER. rewrite !elem_of_cons, elem_of_nil.
      intros [H|[H|[H|[H|[H|[]]]]]]; discriminate H.
    - apply replace_char_elem_of in H as [H|[H _]]; [|done].
      revert H. unfold LIST_ITEM. rewrite !elem_of_cons, elem_of_nil.
      intros [H|[H|[H|[H|[]]]]]; discriminate H. }
  assert (Hpre : preprocess (HEADER ++ question) = line).
  { unfold preprocess. rewrite Hrep. unfold re_sub.
    destruct (length line); [done|]. cbn [re_sub_fuel].
    by rewrite (find_missing_char OPEN_PY line LF) by (done || compute_done). }
  unfold formatted_lines. rewrite Hpre, (split_no_sep_line LF line Hline).
  rewrite loop_cons, loop_body_outside_plain by done.
  unfold blockquote. change (map strip [line]) with [strip line].
  assert (Hstrip : strip line = rstrip line) by done.
  assert (Hne : strip line ≠ []).
  { intros Hnil%strip_nil. inversion Hnil as [|? ? Ha _]. discriminate Ha. }
  rewrite filter_cons_True by done. simpl. by rewrite Hstrip.
Qed.

(** X7: for a question without a line break, [display_answer] sends two
    things to the display, in this order, and touches nothing else: the
    question as one blockquote line that starts with the level-four header
    marker (bullets replaced, right end trimmed), then the formatted answer. *)
Theorem display_answer_shows_header_then_answer question answer st :
  LF ∉ question →
  display_answer question answer st
  = mkState (store st) (heap st)
      (displayed st
       ++ [mkMarkdown (QUOTE ++ rstrip (HEADER ++ replace_char BULLET LIST_ITEM question));
           to_markdown answer]).
Proof.
  intros Hq. unfold display_answer. rewrite (to_markdown_header question Hq).
  unfold display. simpl. by rewrite <- app_assoc.
Qed.

End AnswerExtras.

(** X7 on the question [Who?  ] and a bulleted answer. *)
Lemma display_answer_shows_header_then_answer_witness :
  Session.displayed
    (Answer.display_answer (lit "Who?  ") (BULLET :: lit "Ada") Examples.no_sessions)
  = [mkMarkdown (lit "> #### Who?"); mkMarkdown (lit "> * Ada")].
Proof.
  rewrite display_answer_shows_header_then_answer by compute_done.
  reflexivity.
Defined.

(** ** The document concatenator beyond the claims *)

Section DocumentExtras.

Implicit Types (ds : list Document) (ls : list pystr) (sep : pystr).

Lemma join_app sep ls1 ls2 :
  ls1 ≠ [] → ls2 ≠ [] → join sep (ls1 ++ ls2) = join sep ls1 ++ sep ++ join sep ls2.
Proof.
  intros H1 H2. induction ls1 as [|l ls1 IH]; [done|].
  destruct ls1 as [|l' ls1'].
  - simpl. by destruct ls2.
  - change (join sep ((l :: l' :: ls1') ++ ls2))
      with (l ++ sep ++ join sep ((l' :: ls1') ++ ls2)).
    rewrite IH by done.
    change (join sep (l :: l' :: ls1')) with (l ++ sep ++ join sep (l' :: ls1')).
    by rewrite <- !app_assoc.
Qed.

(** X8: concatenating two non-empty document lists gives the two
    concatenations with one double line break between them. *)
Theorem format_docs_app ds1 ds2 s1 s2 :
  ds1 ≠ [] → ds2 ≠ [] →
  format_docs (Some ds1) = Ok s1 →
  format_docs (Some ds2) = Ok s2 →
  format_docs (Some (ds1 ++ ds2)) = Ok (s1 ++ SEP ++ s2).
Proof.
  intros H1 H2 [= <-] [= <-]. unfold format_docs. f_equal.
  rewrite map_app. apply join_app; by destruct ds1, ds2.
Qed.

(** X8 on the two example lists. *)
Lemma format_docs_app_witness :
  format_docs (Some (Examples.docs_with_metadata ++ Examples.docs_without_metadata))
  = Ok (lit "A" ++ SEP ++ lit "B" ++ SEP ++ lit "A" ++ SEP ++ lit "B").
Proof.
  apply (format_docs_app Examples.docs_with_metadata Examples.docs_without_metadata
           (lit "A" ++ SEP ++ lit "B") (lit "A" ++ SEP ++ lit "B"));
    [discriminate | discriminate | reflexivity | reflexivity].
Defined.

End DocumentExtras.

(** ** The session store beyond the claims *)

Section SessionExtras.

Import Session Observations.

Variable repr_store : gmap pystr ref → gmap ref (list message) → pystr.

Implicit Types (sid : pystr) (st : state) (h : ref) (acts : list action)
  (a : action).

Lemma run_cons a acts st :
  run repr_store (a :: acts) st = run repr_store acts (perform repr_store st a).
Proof. done. Qed.

Lemma perform_access_existing sid st h :
  store st !! sid = Some h →
  store (perform repr_store st (Access sid)) = store st
  ∧ heap (perform repr_store st (Access sid)) = heap st.
Proof. intros H. simpl. by rewrite (get_existing _ _ _ _ H). Qed.

Lemma perform_access_new sid st :
  store st !! sid = None →
  store (perform repr_store st (Access sid))
  = <[sid := fresh (dom (heap st))]> (store st)
  ∧ heap (perform repr_store st (Access sid))
    = <[fresh (dom (heap st)) := []]> (heap st).
Proof. intros H. simpl. by rewrite (get_new _ _ _ H). Qed.

Lemma perform_separate st a :
  separate_histories st → separate_histories (perform repr_store st a).
Proof.
  intros [Hinj Hdom]. destruct a as [sid|h m].
  - destruct (store st !! sid) as [h|] eqn:E.
    + destruct (perform_access_existing sid st h E) as [Hs Hh].
      split; rewrite Hs, ?Hh; done.
    + destruct (perform_access_new sid st E) as [Hs Hh].
      pose proof (is_fresh (dom (heap st))) as Hfresh.
      split; rewrite Hs, ?Hh.
      * intros s1 s2 h. rewrite !lookup_insert.
        repeat case_decide; subst; try done.
        -- intros [= <-] H2. exfalso. apply Hfresh. by apply (Hdom s2).
        -- intros H1 [= <-]. exfalso. apply Hfresh. by apply (Hdom s1).
        -- apply Hinj.
      * intros s h. rewrite lookup_insert, dom_insert_L.
        destruct (decide (sid = s)) as [_|_]; [intros [= <-]; set_solver|].
        intros Hlook. apply elem_of_union. right. by apply (Hdom s).
  - split; simpl; [done|]. intros s h' H. rewrite dom_alter_L. by apply (Hdom s).
Qed.

(** X9: whatever the program does with the store, two sessions never share
    a history object and every entry of the store refers to an existing
    object, provided this was so before. *)
Theorem run_keeps_histories_separate acts st :
  separate_histories st → separate_histories (run repr_store acts st).
Proof.
  revert st. induction acts as [|a acts IH]; intros st H; [done|].
  rewrite run_cons. by apply IH, perform_separate.
Qed.

Lemma perform_heap_appended a st h ms :
  heap st !! h = Some ms →
  heap (perform repr_store st a) !! h = Some (ms ++ appended h [a]).
Proof.
  intros Hh. destruct a as [sid|h' m].
  - change (appended h [Access sid]) with (@nil message). rewrite app_nil_r.
    destruct (store st !! sid) as [h'|] eqn:E.
    + destruct (perform_access_existing sid st h' E) as [_ ->]. done.
    + destruct (perform_access_new sid st E) as [_ ->].
      rewrite lookup_insert_ne; [done|]. intros Heq.
      pose proof (is_fresh (dom (heap st))) as Hfresh.
      rewrite Heq in Hfresh. apply Hfresh, elem_of_dom. by eexists.
  - simpl perform. unfold appended. simpl omap.
    destruct (decide (h' = h)) as [->|Hne]; simpl.
    + by rewrite lookup_alter_eq, Hh.
    + by rewrite lookup_alter_ne, app_nil_r.
Qed.

Lemma appended_cons h a acts : appended h (a :: acts) = appended h [a] ++ appended h acts.
Proof.
  unfold appended. simpl. destruct a as [|h' m]; [done|].
  by destruct (decide (h' = h)).
Qed.

(** X10: a history object is written by appends to it and by nothing else:
    after any run of accesses and appends it holds what it held before
    followed by the messages appended to it, in order. *)
Theorem history_holds_exactly_its_appends acts st h ms :
  heap st !! h = Some ms →
  heap (run repr_store acts st) !! h = Some (ms ++ appended h acts).
Proof.
  revert st ms. induction acts as [|a acts IH]; intros st ms Hh.
  { simpl. by rewrite app_nil_r. }
  rewrite run_cons, appended_cons, app_assoc.
  apply IH. by apply perform_heap_appended.
Qed.

Lemma perform_store_grows a st sid h :
  store st !! sid = Some h → store (perform repr_store st a) !! sid = Some h.
Proof.
  intros Hs. destruct a as [sid'|h' m]; [|done].
  destruct (store st !! sid') as [h'|] eqn:E.
  - destruct (perform_access_existing sid' st h' E) as [-> _]. done.
  - destruct (perform_access_new sid' st E) as [-> _].
    rewrite lookup_insert_ne; [done|]. intros ->. congruence.
Qed.

(** X11: the store only grows: a session that has a history keeps that same
    history object through any run of accesses and appends; no entry is
    removed or redirected. *)
Theorem store_entries_persist acts st sid h :
  store st !! sid = Some h → store (run repr_store acts st) !! sid = Some h.
Proof.
  revert st. induction acts as [|a acts IH]; intros st Hs; [done|].
  rewrite run_cons. by apply IH, perform_store_grows.
Qed.

Lemma perform_displayed a st :
  length (displayed (perform repr_store st a))
  = (length (displayed st) + length (accessed [a]))%nat.
Proof.
  destruct a as [sid|h m]; simpl; [|lia].
  unfold get_session_history. simpl.
  destruct (store st !! sid); simpl; rewrite length_app; simpl; lia.
Qed.

(** X12: every access sends exactly one item to the display, whether the
    session existed or not, and an append sends none: after a run the
    display holds one more item per access. *)
Theorem one_display_per_access acts st :
  length (displayed (run repr_store acts st))
  = (length (displayed st) + length (accessed acts))%nat.
Proof.
  revert st. induction acts as [|a acts IH]; intros st; [simpl; lia|].
  rewrite run_cons, IH, perform_displayed.
  destruct a; simpl; lia.
Qed.

End SessionExtras.

(** X9 on the example conversation, from the empty store. *)
Lemma run_keeps_histories_separate_witness :
  Observations.separate_histories
    (Session.run Examples.repr_keys Examples.conversation Examples.no_sessions).
Proof.
  apply run_keeps_histories_separate.
  unfold Observations.separate_histories, Examples.no_sessions.
  cbn [Session.store Session.heap]. split.
  - intros s1 s2 h H. by rewrite lookup_empty in H.
  - intros s h H. by rewrite lookup_empty in H.
Defined.

(** X10 on the store that holds [alice]: her history gets the two messages
    the conversation appends to it, after the one it had. *)
Lemma history_holds_exactly_its_appends_witness :
  Session.heap
    (Session.run Examples.repr_keys Examples.conversation Examples.one_session)
  !! 1%positive
  = Some ([Examples.hi] ++ [Examples.hi; Examples.hello]).
Proof.
  apply (history_holds_exactly_its_appends Examples.repr_keys Examples.conversation
           Examples.one_session 1%positive [Examples.hi]).
  reflexivity.
Defined.

(** X11 on the store that holds [alice]. *)
Lemma store_entries_persist_witness :
  Session.store
    (Session.run Examples.repr_keys Examples.conversation Examples.one_session)
  !! Examples.alice
  = Some 1%positive.
Proof. apply store_entries_persist. reflexivity. Defined.

(** ** The cached page loader beyond the claims *)

Section CacheExtras.

Import Cache.

Variable json_load : pystr → result json.
Variable json_dump : nat → json → pystr.

Local Abbreviation load := (load_wikipedia_with_cache json_load json_dump).
Local Abbreviation read := (read_cache json_load).

Implicit Types (w : world) (title : pystr) (docs : list Document)
  (d : list (pystr * json)) (loader : pystr → result (list Document)) (c v : json).

(** X14: a hit is read-only, whatever is stored under the title and whether
    or not the call succeeds: the collaborator is not invoked, the file is
    not written, and the outcome does not depend on the collaborator. *)
Theorem cache_hit_is_read_only loader title w d v :
  read_cache json_load w = (Ok (JObj d), w) →
  dict_get title d = Some v →
  snd (load_wikipedia_with_cache json_load json_dump loader title w) = w
  ∧ ∀ loader',
      load_wikipedia_with_cache json_load json_dump loader' title w
      = load_wikipedia_with_cache json_load json_dump loader title w.
Proof.
  intros Hread Hpresent.
  assert (Hhit : ∀ l, load_wikipedia_with_cache json_load json_dump l title w
                      = (match iterate v with
                         | Ok doc_dicts => comprehension Document_init doc_dicts
                         | Err e => Err e
                         end, w)).
  { intros l. unfold load_wikipedia_with_cache.
    unfold bind at 1. rewrite Hread.
    unfold bind at 1. unfold lift at 1. simpl py_in. rewrite Hpresent.
    rewrite bool_decide_eq_true_2 by (by eexists).
    unfold bind, lift. simpl. rewrite Hpresent.
    by destruct (iterate v). }
  split; [by rewrite Hhit|]. intros l. by rewrite !Hhit.
Qed.

(** X15: when the collaborator raises on a miss, the call raises the same
    exception and the cache file stays as it was; the invocation is the only
    thing that happened. *)
Theorem loader_failure_leaves_cache loader title w d e :
  read_cache json_load w = (Ok (JObj d), w) →
  dict_get title d = None →
  loader title = Err e →
  load_wikipedia_with_cache json_load json_dump loader title w
  = (Err e, mkWorld (cache_file w) (loader_calls w ++ [title])).
Proof.
  intros Hread Habsent Hload.
  by rewrite (load_miss json_load json_dump _ _ _ _ Hread Habsent), Hload.
Qed.





(** X17: when the cache file holds JSON that is not an object, the call
    never succeeds and never writes the file: it raises [TypeError], or the
    exception of the collaborator when that was invoked and raised. *)
Theorem non_object_cache_raises loader title w c :
  read_cache json_load w = (Ok c, w) →
  (∀ d, c ≠ JObj d) →
  let r := load_wikipedia_with_cache json_load json_dump loader title w in
  cache_file (snd r) = cache_file w
  ∧ (fst r = Err TypeError ∨ ∃ e, loader title = Err e ∧ fst r = Err e).
Proof.
  intros Hread Hc. cbv zeta.
  unfold load_wikipedia_with_cache, bind, lift, invoke. rewrite Hread.
  destruct c as [|b|n|x|s|l|d]; simpl; [by split; [|left]..| | |].
  - (* a string *)
    destruct (contains title s); simpl; [by split; [|left]|].
    destruct (loader title) as [docs|e]; simpl; [by split; [|left]|].
    split; [done|]. right. by exists e.
  - (* an array *)
    destruct (existsb _ l); simpl; [by split; [|left]|].
    destruct (loader title) as [docs|e]; simpl; [by split; [|left]|].
    split; [done|]. right. by exists e.
  - by destruct (Hc d).
Qed.

(** X18: when the cache file holds a JSON array without the title, the
    collaborator is invoked and its documents are then thrown away: storing
    under a title fails on a list, the call raises [TypeError] and nothing is
    written. *)
Theorem array_cache_wastes_the_load loader title w l docs :
  read_cache json_load w = (Ok (JArr l), w) →
  JStr title ∉ l →
  loader title = Ok docs →
  load_wikipedia_with_cache json_load json_dump loader title w
  = (Err TypeError, mkWorld (cache_file w) (loader_calls w ++ [title])).
Proof.
  intros Hread Hnotin Hload. unfold load_wikipedia_with_cache.
  unfold bind at 1. rewrite Hread.
  unfold bind at 1. unfold lift at 1. simpl py_in.
  assert (existsb (fun x => match x with
                            | JStr s => bool_decide (s = title)
                            | _ => false
                            end) l = false) as ->.
  { apply not_true_is_false. intros (x & Hx & Hm)%existsb_exists.
    apply Hnotin. destruct x; try done.
    apply bool_decide_eq_true in Hm as ->. by apply list_elem_of_In. }
  unfold bind at 1. unfold invoke. rewrite Hload.
  unfold bind, lift. by simpl.
Qed.


End CacheExtras.

(** X5 on a letter of the example text. *)
Lemma output_alphabet_witness :
  (104 ∈ Examples.plain_text ∧ 104 ≠ BULLET) ∨ 104 ∈ [LF; 62; 32; 42].
Proof. apply output_alphabet. compute_done. Defined.

(** X14 with the JSON text codec, on an entry that is a number: the call
    leaves the world as it was, with the stub as with the failing
    collaborator. *)
Lemma cache_hit_is_read_only_witness :
  snd (Cache.load_wikipedia_with_cache JsonText.json_load JsonText.json_dump
         Examples.stub_loader Examples.lovelace MoreExamples.malformed_file)
  = MoreExamples.malformed_file
  ∧ ∀ loader',
      Cache.load_wikipedia_with_cache JsonText.json_load JsonText.json_dump
        loader' Examples.lovelace MoreExamples.malformed_file
      = Cache.load_wikipedia_with_cache JsonText.json_load JsonText.json_dump
          Examples.stub_loader Examples.lovelace MoreExamples.malformed_file.
Proof.
  apply (cache_hit_is_read_only JsonText.json_load JsonText.json_dump
           Examples.stub_loader Examples.lovelace MoreExamples.malformed_file
           [(Examples.lovelace, JInt 5)] (JInt 5)).
  - vm_compute. reflexivity.
  - reflexivity.
Defined.

(** X15 with the JSON text codec and a collaborator that fails. *)
Lemma loader_failure_leaves_cache_witness :
  Cache.load_wikipedia_with_cache JsonText.json_load JsonText.json_dump
    Examples.failing_loader Examples.turing Examples.lovelace_file
  = (Err (CollaboratorError 503),
     Cache.mkWorld (Cache.cache_file Examples.lovelace_file) [Examples.turing]).
Proof.
  apply (loader_failure_leaves_cache JsonText.json_load JsonText.json_dump
           Examples.failing_loader Examples.turing Examples.lovelace_file
           Examples.cached_lovelace).
  - vm_compute. reflexivity.
  - reflexivity.
  - reflexivity.
Defined.


(** X17 with the JSON text codec, on a cache file that holds an array. *)
Lemma non_object_cache_raises_witness :
  let r := Cache.load_wikipedia_with_cache JsonText.json_load JsonText.json_dump
             Examples.stub_loader Examples.turing MoreExamples.array_file in
  Cache.cache_file (snd r) = Cache.cache_file MoreExamples.array_file
  ∧ (fst r = Err TypeError
     ∨ ∃ e, Examples.stub_loader Examples.turing = Err e ∧ fst r = Err e).
Proof.
  apply (non_object_cache_raises JsonText.json_load JsonText.json_dump
           Examples.stub_loader Examples.turing MoreExamples.array_file
           (JArr [JStr Examples.lovelace])).
  - vm_compute. reflexivity.
  - discriminate.
Defined.

(** X18 with the JSON text codec: the stub's page is loaded and lost. *)
Lemma array_cache_wastes_the_load_witness :
  Cache.load_wikipedia_with_cache JsonText.json_load JsonText.json_dump
    Examples.stub_loader Examples.turing MoreExamples.array_file
  = (Err TypeError,
     Cache.mkWorld (Cache.cache_file MoreExamples.array_file) [Examples.turing]).
Proof.
  apply (array_cache_wastes_the_load JsonText.json_load JsonText.json_dump
           Examples.stub_loader Examples.turing MoreExamples.array_file
           [JStr Examples.lovelace] Examples.page).
  - vm_compute. reflexivity.
  - rewrite list_elem_of_singleton. discriminate.
  - reflexivity.
Defined.


(** X20: a text without a bullet and without the opening of a python block
    (the fence, [python], a line break) reaches the loop as it is: the
    output is what the loop makes of the lines of the input itself. *)
Theorem text_without_bullet_or_block_is_only_looped (text : pystr) :
  BULLET ∉ text → find OPEN_PY text = None →
  formatted_lines text = output_of (split LF text).
Proof.
  intros Hb Ho. unfold formatted_lines, output_of.
  by rewrite (preprocess_id text Hb Ho).
Qed.

(** X20 on the example text with one fenced block. *)
Lemma text_without_bullet_or_block_is_only_looped_witness :
  formatted_lines Examples.fenced_text = output_of (split LF Examples.fenced_text).
Proof.
  apply text_without_bullet_or_block_is_only_looped; [compute_done|reflexivity].
Defined.
